(** * WHIRL: hybrid retrieval, streamed generation and the SSE proxy

    A shallow embedding of [backend/rag/rag.py] (tokenizer, rank fusion,
    reranking, streamed generation, conversation history) and of
    [backend/api/views.py] (the SSE proxy generator), with the properties
    the design document states about them.

    Conventions of the embedding.
    - Python [str] is [string]; the character tables ([str.lower],
      [str.isspace], the regex class [\W]) are the ASCII ones.
    - Python [float] scores and clock readings are exact rationals [Q].
    - A Python [dict] is an association list in insertion order, because
      the iteration order of [rrf_scores] decides ties of the stable sort.
    - A call that may raise returns an [outcome]; [try]/[except] is a
      match on it.  A generator is the list of what it yields when it is
      driven to exhaustion, next to its final state. *)

From Stdlib Require Import QArith Qround ZArith Lia Ascii.
From stdpp Require Import base list strings sorting pretty.

(* ===================================================================== *)
(** * Python primitives *)
(* ===================================================================== *)

Module Py.

(** Exception classes the [except] clauses of the sources tell apart. *)
Inductive exn_class := HttpxRequestError | HttpxStreamError | OtherException.

(** An exception: the class the handlers match on, [type(e).__name__]
    and [str(e)]. *)
Record exn := Exn { exn_kind : exn_class; exn_name : string; exn_str : string }.

Inductive outcome (A : Type) : Type :=
| Ok (a : A)
| Raise (e : exn).
Arguments Ok {A} a.
Arguments Raise {A} e.

Definition bind {A B} (m : outcome A) (f : A -> outcome B) : outcome B :=
  match m with
  | Ok a => f a
  | Raise e => Raise e
  end.

(** [try: body except Exception: handler] *)
Definition try_except {A} (body : outcome A) (handler : exn -> outcome A)
  : outcome A :=
  match body with
  | Ok a => Ok a
  | Raise e => handler e
  end.

(** ** Slices *)

(** [l[start:]] for an arbitrary [int] start. *)
Definition slice_from {A} (start : Z) (l : list A) : list A :=
  let len := Z.of_nat (length l) in
  let i := if (start <? 0)%Z then Z.max 0 (start + len) else Z.min start len in
  drop (Z.to_nat i) l.

(** [l[:stop]] for an arbitrary [int] stop. *)
Definition slice_to {A} (stop : Z) (l : list A) : list A :=
  let len := Z.of_nat (length l) in
  let j := if (stop <? 0)%Z then Z.max 0 (stop + len) else Z.min stop len in
  take (Z.to_nat j) l.

(** [enumerate(l)] *)
Definition enumerate {A} (l : list A) : list (nat * A) :=
  zip (seq 0 (length l)) l.

(** ** Insertion-ordered dictionaries *)

Section dict.
Context {K V : Type} `{EqDecision K}.

Fixpoint dict_get (k : K) (d : list (K * V)) : option V :=
  match d with
  | [] => None
  | (k', v) :: d' => if decide (k = k') then Some v else dict_get k d'
  end.

(** [d[k] = v]: an existing key keeps its position. *)
Fixpoint dict_set (k : K) (v : V) (d : list (K * V)) : list (K * V) :=
  match d with
  | [] => [(k, v)]
  | (k', v') :: d' =>
      if decide (k = k') then (k, v) :: d' else (k', v') :: dict_set k v d'
  end.

Definition dict_keys (d : list (K * V)) : list K := d.*1.

(** [{key(x): val(x) for x in l}] *)
Definition dict_of {A} (key : A -> K) (val : A -> V) (l : list A)
  : list (K * V) :=
  fold_left (fun d x => dict_set (key x) (val x) d) l [].
End dict.

(** ** [sorted] *)

Section sorted.
Context {A K : Type}.

(** Stable insertion: [x] stood before everything in [l] and moves
    behind exactly the elements that must precede it. *)
Fixpoint insert_by (precedes : A -> A -> bool) (x : A) (l : list A)
  : list A :=
  match l with
  | [] => [x]
  | y :: l' =>
      if precedes y x then y :: insert_by precedes x l' else x :: l
  end.

(** [sorted(l, key=key, reverse=True)]: stable, descending. *)
Definition sorted_desc (key : A -> K) (lt : K -> K -> bool) (l : list A)
  : list A :=
  foldr (insert_by (fun y x => lt (key x) (key y))) [] l.

(** [sorted(l, key=key)]: stable, ascending. *)
Definition sorted_asc (key : A -> K) (lt : K -> K -> bool) (l : list A)
  : list A :=
  foldr (insert_by (fun y x => lt (key y) (key x))) [] l.
End sorted.

(** ** Strings *)

(** A [str] is modelled for ASCII text, one [ascii] per character with
    a code below 128 ([is_ascii] below).  The tables that follow
    ([isupper], [isspace], [is_word], [lower], ...) are Python's on
    that range; [str.lower] and the regex classes are Unicode-aware
    beyond it, and what is proved by looking inside these tables is
    stated for ASCII text only. *)

Definition code (c : ascii) : nat := nat_of_ascii c.

Definition between (lo hi : nat) (c : ascii) : bool :=
  ((lo <=? code c) && (code c <=? hi))%nat.

Definition isupper (c : ascii) : bool := between 65 90 c.
Definition islower (c : ascii) : bool := between 97 122 c.
Definition isdigit (c : ascii) : bool := between 48 57 c.
Definition isalnum (c : ascii) : bool := isupper c || islower c || isdigit c.

(** [str.isspace] on ASCII: TAB..CR, FS..US and the blank. *)
Definition isspace (c : ascii) : bool :=
  between 9 13 c || between 28 32 c.

(** The regex class [\w] on ASCII: alphanumerics and the underscore. *)
Definition is_word (c : ascii) : bool := isalnum c || (code c =? 95)%nat.

Definition lower_char (c : ascii) : ascii :=
  if isupper c then ascii_of_nat (code c + 32) else c.

(** [s.lower()] of an ASCII text. *)
Fixpoint lower (s : string) : string :=
  match s with
  | EmptyString => EmptyString
  | String c s' => String (lower_char c) (lower s')
  end.

(** [s.startswith(p)] *)
Definition startswith (s p : string) : bool := String.prefix p s.

Fixpoint lstrip (s : string) : string :=
  match s with
  | EmptyString => EmptyString
  | String c s' => if isspace c then lstrip s' else s
  end.

(** [s.strip()] *)
Definition strip (s : string) : string :=
  String.rev (lstrip (String.rev (lstrip s))).

(** [s.split(sep)] for a one-character separator. *)
Fixpoint split (sep : ascii) (s : string) : list string :=
  match s with
  | EmptyString => [EmptyString]
  | String c s' =>
      if decide (c = sep) then EmptyString :: split sep s'
      else match split sep s' with
           | h :: t => String c h :: t
           | [] => [String c EmptyString]
           end
  end.

(** [s[n:]] for a literal [n >= 0]. *)
Fixpoint drop_chars (n : nat) (s : string) : string :=
  match n, s with
  | O, _ => s
  | S n', String _ s' => drop_chars n' s'
  | S _, EmptyString => EmptyString
  end.

(** [sep.join(l)] *)
Definition join (sep : string) (l : list string) : string := String.concat sep l.

(** [s.rfind(c)], [-1] when [c] does not occur. *)
Fixpoint rfind_go (c : ascii) (s : string) (i found : Z) : Z :=
  match s with
  | EmptyString => found
  | String c' s' =>
      rfind_go c s' (i + 1)%Z (if decide (c' = c) then i else found)
  end.

Definition rfind (c : ascii) (s : string) : Z := rfind_go c s 0%Z (-1)%Z.

(** [s[i:j]] for [0 <= i <= j]. *)
Definition substr (i j : Z) (s : string) : string :=
  String.substring (Z.to_nat i) (Z.to_nat (j - i)) s.

Fixpoint all_chars (p : ascii -> bool) (s : string) : bool :=
  match s with
  | EmptyString => true
  | String c s' => p c && all_chars p s'
  end.

(** [s.isascii()] *)
Definition isascii (s : string) : bool :=
  all_chars (fun c => (code c <? 128)%nat) s.

(** [os.path.splitext] of [posixpath]: the extension starts at the last
    dot of the last path component, unless only dots precede it there. *)
Definition splitext (p : string) : string * string :=
  let sepIndex := rfind "/" p in
  let dotIndex := rfind "." p in
  if (sepIndex <? dotIndex)%Z then
    let filenameIndex := (sepIndex + 1)%Z in
    if all_chars (fun c => bool_decide (c = "."%char))
         (substr filenameIndex dotIndex p)
    then (p, EmptyString)
    else (substr 0 dotIndex p, drop_chars (Z.to_nat dotIndex) p)
  else (p, EmptyString).

(** [int(x)] of a float: truncation towards zero. *)
Definition int_of (x : Q) : Z := Z.quot (Qnum x) (Zpos (Qden x)).

(** [bool(s)] *)
Definition nonempty (s : string) : bool :=
  match s with EmptyString => false | _ => true end.

(** [re.split(sep + '+', s)] for a character class [sep]: the pieces
    between the maximal runs of separators, the empty pieces at both ends
    included.  [in_run] tells that the previous character was a
    separator; the piece being read is the head of the result. *)
Fixpoint re_split_go (sep : ascii -> bool) (in_run : bool) (s : string)
  : list string :=
  match s with
  | EmptyString => [EmptyString]
  | String c s' =>
      if sep c then
        if in_run then re_split_go sep true s'
        else EmptyString :: re_split_go sep true s'
      else match re_split_go sep false s' with
           | h :: t => String c h :: t
           | [] => [String c EmptyString]
           end
  end.

Definition re_split (sep : ascii -> bool) (s : string) : list string :=
  re_split_go sep false s.

(** [re.split(r'\W+', s)] *)
Definition re_split_nonword : string -> list string :=
  re_split (fun c => negb (is_word c)).

End Py.

Import Py.

(** Comparison of scores. *)
Definition Qltb (x y : Q) : bool := negb (Qle_bool y x).

Definition nl : string := String "010"%char EmptyString.

(* ===================================================================== *)
(** * rag.py *)
(* ===================================================================== *)

Module Rag.

(** [langchain] documents.  Of the metadata map the code reads and
    writes two keys, ['source'] and ['rerank_score']. *)
Record Metadata := { source : option string; rerank_score : option Q }.

Record Document := { page_content : string; metadata : Metadata }.

(** One turn of [conversation_history]: [{"human": ..., "ai": ...}]. *)
Record Turn := { human : string; ai : string }.

(** The attributes of [RAGBot] the modelled methods read.  The external
    models are the functions they compute; [reranker] is what
    [load_reranker_model] returns ([None] when loading failed). *)
Record RAGBot := {
  llm_loaded : bool;
  vectorstore : option (string -> Z -> outcome (list (Document * Q)));
  bm25_index : option (list string -> outcome (list Q));
  all_documents : list Document;
  reranker : option (list (string * string) -> outcome (list Q));
  conversation_history : list Turn;
  max_history_length : Z
}.

(** [self.over_retrieve_k = 20] and [self.k = 5], set in [__init__]. *)
Definition over_retrieve_k : Z := 20.
Definition k : Z := 5.

(** ** [simple_tokenizer] *)

Definition simple_tokenizer (text : string) : list string :=
  let text := lower text in
  let tokens := re_split_nonword text in
  filter (fun token => token <> EmptyString) tokens.

(** ** [rerank_documents] *)

(** [doc.metadata["rerank_score"] = float(score)] over [zip(docs, scores)] *)
Definition with_score (doc : Document) (score : Q) : Document :=
  {| page_content := page_content doc;
     metadata := {| source := source (metadata doc);
                    rerank_score := Some score |} |}.

Fixpoint store_scores (docs : list Document) (scores : list Q)
  : list Document :=
  match docs, scores with
  | doc :: docs', score :: scores' =>
      with_score doc score :: store_scores docs' scores'
  | _, _ => docs
  end.

(** [x.metadata.get("rerank_score", -float('inf'))]; [None] is [-inf]. *)
Definition rerank_key (doc : Document) : option Q :=
  rerank_score (metadata doc).

Definition key_lt (a b : option Q) : bool :=
  match a, b with
  | _, None => false
  | None, Some _ => true
  | Some x, Some y => Qltb x y
  end.

Definition rerank_documents (bot : RAGBot) (query : string)
    (docs_for_reranking : list Document) : list Document :=
  match docs_for_reranking with
  | [] => []
  | _ =>
      match reranker bot with
      | None => slice_to k docs_for_reranking
      | Some predict =>
          let doc_pairs :=
            map (fun doc => (query, page_content doc)) docs_for_reranking in
          match predict doc_pairs with
          | Raise _ => slice_to k docs_for_reranking
          | Ok rerank_scores =>
              let scored := store_scores docs_for_reranking rerank_scores in
              let sorted_docs := sorted_desc rerank_key key_lt scored in
              slice_to k sorted_docs
          end
      end
  end.

(** ** [retrieve_documents] *)

Definition k_rrf : nat := 60.

(** [1.0 / (k_rrf + rank)] *)
Definition rrf_term (rank : nat) : Q :=
  (1 / inject_Z (Z.of_nat (k_rrf + rank)))%Q.

(** [rrf_scores[doc_index] = rrf_scores.get(doc_index, 0.0) + 1.0 / (k_rrf + rank)] *)
Definition rrf_add (doc_index rank : nat) (rrf_scores : list (nat * Q))
  : list (nat * Q) :=
  dict_set doc_index
    (default 0%Q (dict_get doc_index rrf_scores) + rrf_term rank)%Q rrf_scores.

Definition dense_ranks (dense_results : list (Document * Q))
  : list (string * nat) :=
  dict_of (fun x : nat * (Document * Q) => page_content (x.2.1))
          (fun x => x.1) (enumerate dense_results).

Definition doc_content_to_index (all_documents : list Document)
  : list (string * nat) :=
  dict_of (fun x : nat * Document => page_content (x.2))
          (fun x => x.1) (enumerate all_documents).

Definition rrf_dense (dense_ranks content_to_index : list (string * nat))
    (rrf_scores : list (nat * Q)) : list (nat * Q) :=
  fold_left
    (fun rrf (item : string * nat) =>
       match dict_get item.1 content_to_index with
       | Some doc_index => rrf_add doc_index item.2 rrf
       | None => rrf
       end)
    dense_ranks rrf_scores.

(** [sparse_scores[i]] for an index in range. *)
Definition score_at (sparse_scores : list Q) (i : nat) : Q :=
  default 0%Q (sparse_scores !! i).

Definition sparse_ranked_indices (sparse_scores : list Q) : list nat :=
  sorted_desc (score_at sparse_scores) Qltb (seq 0 (length sparse_scores)).

Definition num_sparse_for_fusion : Z := over_retrieve_k * 2.

(** The sparse loop of the fusion.  With a number of scores other than
    the number of documents it adds nothing; the truth test of the
    [elif] taken then is [sparse_mismatch] below. *)
Definition rrf_sparse (sparse_scores : list Q) (n_documents : nat)
    (rrf_scores : list (nat * Q)) : list (nat * Q) :=
  if decide (length sparse_scores = n_documents) then
    fold_left
      (fun rrf (item : nat * nat) =>
         if Qltb 0%Q (score_at sparse_scores item.2)
         then rrf_add item.2 item.1 rrf else rrf)
      (enumerate (slice_to num_sparse_for_fusion
                    (sparse_ranked_indices sparse_scores)))
      rrf_scores
  else rrf_scores.

(** The dictionary [rrf_scores] when the fusion loops are done. *)
Definition rrf_scores (dense_results : list (Document * Q))
    (all_documents : list Document) (sparse_scores : list Q)
  : list (nat * Q) :=
  rrf_sparse sparse_scores (length all_documents)
    (rrf_dense (dense_ranks dense_results)
       (doc_content_to_index all_documents) []).

(** [rrf_scores[idx]] for a key of the dictionary. *)
Definition fused (rrf : list (nat * Q)) (idx : nat) : Q :=
  default 0%Q (dict_get idx rrf).

Definition top_indices_for_reranking (rrf : list (nat * Q)) : list nat :=
  slice_to over_retrieve_k (sorted_desc (fused rrf) Qltb (dict_keys rrf)).

Definition index_error : exn :=
  Exn OtherException "IndexError" "list index out of range".

(** [[self.all_documents[idx] for idx in top_indices_for_reranking]] *)
Definition docs_at (all_documents : list Document) (indices : list nat)
  : outcome (list Document) :=
  match mapM (fun idx => all_documents !! idx) indices with
  | Some docs => Ok docs
  | None => Raise index_error
  end.

(** The sparse stage: [sparse_scores] before fusion. *)
Definition sparse_search (bot : RAGBot) (query : string) : outcome (list Q) :=
  match bm25_index bot, all_documents bot with
  | Some get_scores, _ :: _ =>
      let tokenized_query := simple_tokenizer query in
      match tokenized_query with
      | [] => Ok []
      | _ => get_scores tokenized_query
      end
  | _, _ => Ok []
  end.

Definition value_error : exn :=
  Exn OtherException "ValueError"
    "The truth value of an array with more than one element is ambiguous. Use a.any() or a.all()".

(** [elif sparse_scores:], reached when the number of scores is not the
    number of documents.  The scores of [get_scores] are a numpy array:
    its truth value raises when it has more than one element; an empty
    list (or array) is false, and so skipped. *)
Definition sparse_mismatch (sparse_scores : list Q) (n_documents : nat)
  : outcome unit :=
  if decide (length sparse_scores = n_documents) then Ok tt
  else if decide (1 < length sparse_scores) then Raise value_error
       else Ok tt.

(** The body of the [try] block. *)
Definition retrieve_documents_try (bot : RAGBot) (query : string)
  : outcome (list Document) :=
  match vectorstore bot with
  | None => Ok []
  | Some similarity_search_with_score =>
      bind (similarity_search_with_score query over_retrieve_k)
        (fun dense_results =>
      bind (sparse_search bot query) (fun sparse_scores =>
      bind (sparse_mismatch sparse_scores (length (all_documents bot)))
        (fun _ =>
      let rrf := rrf_scores dense_results (all_documents bot) sparse_scores in
      bind (docs_at (all_documents bot) (top_indices_for_reranking rrf))
        (fun docs_for_reranking =>
      Ok (rerank_documents bot query docs_for_reranking)))))
  end.

Definition retrieve_documents (bot : RAGBot) (query : string)
  : outcome (list Document) :=
  try_except (retrieve_documents_try bot query) (fun _ => Ok []).

(** ** [add_to_history] *)

Definition add_to_history (max_history_length : Z) (history : list Turn)
    (user_input ai_response : string) : list Turn :=
  let history := history ++ [{| human := user_input; ai := ai_response |}] in
  if (max_history_length <? Z.of_nat (length history))%Z
  then slice_from (- max_history_length) history
  else history.

(** ** [generate_response_stream] *)

(** What the generator yields; on the wire
    [event: <kind>\ndata: <json.dumps(payload)>\n\n]. *)
Inductive sse_event :=
| TokenEvent (token : string)
| SourcesEvent (sources : list string)
| ErrorEvent (error : string)
| EndEvent.

(** How the loop over the streamer goes wrong.  [Raised e]: an
    exception is raised inside the [try] block.  [Blocked]:
    [self.llm_model.generate] fails in its thread, so the streamer
    never gets its stop signal; [TextIteratorStreamer] is built without
    a timeout, and [for new_text in streamer] waits for ever behind the
    texts already streamed. *)
Inductive stream_fault :=
| Raised (e : exn)
| Blocked.

(** The language model's side of one call: whether steps 1-4 (prompt,
    template, tokenization, thread start) go through, the texts the
    streamer yields, and what goes wrong after them, if anything. *)
Record Generation := {
  prepared : outcome unit;
  streamed : list string;
  stream_failure : option stream_fault
}.

(** A run: the events it yields (all of them, or those before it
    blocks), the exception that escapes (if any),
    [full_response_for_history] when the [finally] block is reached, and
    [conversation_history] afterwards. *)
Record generated := {
  yielded : list sse_event;
  raised : option exn;
  answer : option string;
  history_after : list Turn
}.

(** The set [sources] after the loop over [documents], as
    [sorted(list(sources))]. *)
Definition sorted_sources (documents : list Document) : list string :=
  let sources :=
    remove_dups
      (omap (fun doc =>
               (fun filename_with_ext => (splitext filename_with_ext).1)
                 <$> source (metadata doc))
            documents) in
  sorted_asc id String.ltb sources.

(** ["\n\n---\n**Sources:**\n" + "\n".join(f"- {s}" for s in sources)] *)
Definition sources_block (sources : list string) : string :=
  nl +:+ nl +:+ "---" +:+ nl +:+ "**Sources:**" +:+ nl
     +:+ join nl (map (fun s => "- " +:+ s) sources).

(** The [finally] block: the end event, then the history update. *)
Definition finish (bot : RAGBot) (question : string)
    (events : list sse_event) (full_response_for_history : string)
  : generated :=
  {| yielded := events ++ [EndEvent];
     raised := None;
     answer := Some full_response_for_history;
     history_after :=
       if nonempty question && nonempty full_response_for_history
       then add_to_history (max_history_length bot)
              (conversation_history bot) question full_response_for_history
       else conversation_history bot |}.

Definition generate_response_stream (bot : RAGBot) (question : string)
    (documents : list Document) (g : Generation) : generated :=
  if negb (llm_loaded bot) then
    {| yielded := [ErrorEvent "LLM not initialized"];
       raised := None;
       answer := None;
       history_after := conversation_history bot |}
  else
    match prepared g with
    | Raise e =>
        {| yielded := []; raised := Some e; answer := None;
           history_after := conversation_history bot |}
    | Ok _ =>
        let new_texts := filter (fun new_text => new_text <> EmptyString)
                           (streamed g) in
        let token_events := map TokenEvent new_texts in
        let full_response_for_history := join EmptyString new_texts in
        match stream_failure g with
        | Some (Raised e) =>
            finish bot question
              (token_events
                 ++ [ErrorEvent ("Error during generation: " +:+ exn_str e)])
              full_response_for_history
        | Some Blocked =>
            {| yielded := token_events; raised := None; answer := None;
               history_after := conversation_history bot |}
        | None =>
            match sorted_sources documents with
            | [] => finish bot question token_events full_response_for_history
            | sources =>
                finish bot question
                  (token_events ++ [SourcesEvent sources])
                  (full_response_for_history +:+ sources_block sources)
            end
        end
    end.

End Rag.

(* ===================================================================== *)
(** * api/views.py *)
(* ===================================================================== *)

Module Views.

(** Values [json.loads] returns. *)
#[local] Unset Elimination Schemes.
Inductive json :=
| JNull
| JBool (b : bool)
| JNumber (x : Q)
| JString (s : string)
| JArray (items : list json)
| JObject (members : list (string * json)).
#[local] Set Elimination Schemes.

(** The [Interaction] row: the fields the proxy reads and writes.  It
    is a model instance, so the [hasattr] tests of the [finally] block
    hold. *)
Record Interaction := {
  id : string;
  final_response_text : option string;
  error_message : option string
}.

(** What the proxy yields.  [Forwarded] is an upstream chunk passed on
    as it came; [KeepAlive ts] is the comment line [: ping <ts>]; the
    others are the events the proxy writes itself. *)
Inductive sse :=
| Init (interaction_id : string)
| Error (error : string) (detail : option string) (interaction_id : string)
| End
| Forwarded (chunk : string)
| KeepAlive (ts : Z).

(** One iteration of [response.aiter_text()]: the chunk, the clock when
    it arrives and the clock when the generator is resumed after
    yielding it. *)
Record step := { received_at : Q; chunk : string; resumed_at : Q }.

Inductive stream_end := Exhausted | Broken (e : exn).

(** The RAG service as one session sees it. *)
Inductive upstream :=
| ConnectFails (e : exn)
| Responds (status_code : Z) (body : outcome string)
           (chunks : list step) (fin : stream_end).

Record session := {
  init_resumed_at : Q;
  service : upstream;
  save_raises : bool
}.

(** The local variables of the generator. *)
Record locals := {
  full_response_text : string;
  error_occurred : bool;
  last_activity_time : Q;
  interaction : Interaction
}.

Definition set_text (text : string) (st : locals) : locals :=
  {| full_response_text := text;
     error_occurred := error_occurred st;
     last_activity_time := last_activity_time st;
     interaction := interaction st |}.

Definition set_error_occurred (st : locals) : locals :=
  {| full_response_text := full_response_text st;
     error_occurred := true;
     last_activity_time := last_activity_time st;
     interaction := interaction st |}.

Definition set_last_activity (t : Q) (st : locals) : locals :=
  {| full_response_text := full_response_text st;
     error_occurred := error_occurred st;
     last_activity_time := t;
     interaction := interaction st |}.

(** [interaction.error_message = error_msg; error_occurred = True] *)
Definition fail_with (error_msg : string) (st : locals) : locals :=
  {| full_response_text := full_response_text st;
     error_occurred := true;
     last_activity_time := last_activity_time st;
     interaction :=
       {| id := id (interaction st);
          final_response_text := final_response_text (interaction st);
          error_message := Some error_msg |} |}.

Definition set_final_response_text (text : string) (i : Interaction)
  : Interaction :=
  {| id := id i; final_response_text := Some text;
     error_message := error_message i |}.

Record finished := {
  yielded : list sse;
  final : locals;
  save_calls : list Interaction;
  stored : option Interaction
}.

Definition json_decode_error : exn :=
  Exn OtherException "JSONDecodeError" "invalid JSON".
Definition attribute_error : exn :=
  Exn OtherException "AttributeError" "object has no attribute 'get'".
Definition type_error : exn :=
  Exn OtherException "TypeError" "unsupported operand or not iterable".

Section proxy.
(** [json.loads] ([None] when it raises), [str()] of a decoded value
    that is not a string, and [settings.RAG_SERVICE_URL]. *)
Variable json_loads : string -> option json.
Variable py_str : json -> string.
Variable RAG_SERVICE_URL : string.

Definition rag_service_url : string :=
  RAG_SERVICE_URL +:+ "/rag_generate_stream".

(** The first line of [chunk.strip().split('\n')] that starts with
    ["data:"]. *)
Definition find_data_line (chunk : string) : option string :=
  let lines := split "010"%char (strip chunk) in
  List.find (fun line => startswith line "data:") lines.

(** [json.loads(data_line[len("data:"):].strip())] *)
Definition load_data (data_line : string) : outcome json :=
  let data_json := strip (drop_chars 5 data_line) in
  match json_loads data_json with
  | Some data => Ok data
  | None => Raise json_decode_error
  end.

(** [data.get(key, dflt)] *)
Definition get (data : json) (key : string) (dflt : json) : outcome json :=
  match data with
  | JObject members => Ok (default dflt (dict_get key members))
  | _ => Raise attribute_error
  end.

(** [full_response_text + x] *)
Definition add_str (text : string) (x : json) : outcome string :=
  match x with
  | JString s => Ok (text +:+ s)
  | _ => Raise type_error
  end.

(** [bool(x)] *)
Definition truthy (x : json) : bool :=
  match x with
  | JNull => false
  | JBool b => b
  | JNumber q => negb (Qeq_bool q 0)
  | JString s => nonempty s
  | JArray items => match items with [] => false | _ => true end
  | JObject members => match members with [] => false | _ => true end
  end.

(** [for s in x] *)
Definition iterate (x : json) : outcome (list json) :=
  match x with
  | JArray items => Ok items
  | JString s =>
      Ok (map (fun c => JString (String c EmptyString))
            (String.list_ascii_of_string s))
  | JObject members => Ok (map (fun kv => JString kv.1) members)
  | _ => Raise type_error
  end.

(** [f"{s}"] *)
Definition format (s : json) : string :=
  match s with
  | JString text => text
  | _ => py_str s
  end.

(** The [try] block after a chunk was forwarded; the flag tells
    whether the loop is left by [break]. *)
Definition inspect (chunk : string) (st : locals) : outcome (locals * bool) :=
  if startswith chunk "event: token" then
    match find_data_line chunk with
    | Some data_line =>
        bind (load_data data_line) (fun data =>
        bind (get data "token" (JString EmptyString)) (fun token =>
        bind (add_str (full_response_text st) token) (fun text =>
        Ok (set_text text st, false))))
    | None => Ok (st, false)
    end
  else if startswith chunk "event: sources" then
    match find_data_line chunk with
    | Some data_line =>
        bind (load_data data_line) (fun data =>
        bind (get data "sources" (JArray [])) (fun sources_list =>
        if truthy sources_list then
          bind (iterate sources_list) (fun items =>
          let sources_markdown :=
            Rag.sources_block (map format items) in
          Ok (set_text (full_response_text st +:+ sources_markdown) st,
              false))
        else Ok (st, false)))
    | None => Ok (st, false)
    end
  else if startswith chunk "event: error" then
    Ok (set_error_occurred st, false)
  else if startswith chunk "event: end" then
    Ok (st, true)
  else Ok (st, false).

(** [except Exception as parse_err]: logged, the loop goes on. *)
Definition inspected (chunk : string) (st : locals) : locals * bool :=
  match inspect chunk st with
  | Ok r => r
  | Raise _ => (st, false)
  end.

(** The keep-alive test at the head of an iteration. *)
Definition keep_alive (current_time : Q) (st : locals) : list sse * locals :=
  if Qltb 15 (current_time - last_activity_time st)
  then ([KeepAlive (int_of current_time)], set_last_activity current_time st)
  else ([], st).

(** [async for chunk in response.aiter_text()]: what is yielded, the
    locals afterwards and the exception that ends the loop, if any. *)
Fixpoint stream_loop (chunks : list step) (fin : stream_end) (st : locals)
  : list sse * locals * option exn :=
  match chunks with
  | [] =>
      match fin with
      | Exhausted => ([], st, None)
      | Broken e => ([], st, Some e)
      end
  | s :: rest =>
      let '(ping, st) := keep_alive (received_at s) st in
      let st := set_last_activity (resumed_at s) st in
      let '(st, leave) := inspected (chunk s) st in
      if leave then (ping ++ [Forwarded (chunk s)], st, None)
      else
        let '(more, st', e) := stream_loop rest fin st in
        (ping ++ Forwarded (chunk s) :: more, st', e)
  end.

(** The [try] block after the init event. *)
Definition attempt (sess : session) (st : locals)
  : list sse * locals * option exn :=
  match service sess with
  | ConnectFails e => ([], st, Some e)
  | Responds status_code body chunks fin =>
      if decide (status_code <> 200%Z) then
        match body with
        | Raise e => ([], st, Some e)
        | Ok error_detail =>
            let error_msg :=
              "RAG service returned error " +:+ pretty status_code
                +:+ ": " +:+ error_detail in
            ([Error error_msg None (id (interaction st))],
             fail_with error_msg st, None)
        end
      else stream_loop chunks fin st
  end.

(** The three [except] clauses. *)
Definition handle (e : exn) (st : locals) : list sse * locals :=
  let interaction_id_str := id (interaction st) in
  match exn_kind e with
  | HttpxRequestError =>
      let error_msg :=
        "httpx.RequestError: Could not connect to RAG service at "
          +:+ rag_service_url +:+ ": " +:+ exn_str e in
      ([Error "RAG Service Connection Error" (Some (exn_str e))
          interaction_id_str; End],
       fail_with error_msg st)
  | HttpxStreamError =>
      let error_msg :=
        "httpx.StreamError: Error during streaming from RAG service at "
          +:+ rag_service_url +:+ ": " +:+ exn_str e in
      ([Error "RAG Service Stream Error" (Some (exn_str e))
          interaction_id_str; End],
       fail_with error_msg st)
  | OtherException =>
      let error_msg :=
        "Unexpected error during SSE proxy generation: "
          +:+ exn_name e +:+ ": " +:+ exn_str e in
      ([Error "Internal Server Error" (Some (exn_str e))
          interaction_id_str; End],
       fail_with error_msg st)
  end.

(** The assignment at the head of the [finally] block. *)
Definition capture (st : locals) : locals :=
  if nonempty (full_response_text st) && negb (error_occurred st) then
    {| full_response_text := full_response_text st;
       error_occurred := error_occurred st;
       last_activity_time := last_activity_time st;
       interaction :=
         set_final_response_text (full_response_text st) (interaction st) |}
  else st.

Definition rag_service_sse_proxy_generator (query_text : string)
    (interaction : Interaction) (sess : session) : finished :=
  let st := {| full_response_text := EmptyString;
               error_occurred := false;
               last_activity_time := init_resumed_at sess;
               interaction := interaction |} in
  let '(forwarded, st, exc) := attempt sess st in
  let '(reported, st) :=
    match exc with
    | Some e => handle e st
    | None => ([], st)
    end in
  let st := capture st in
  let closing := if error_occurred st then [] else [End] in
  {| yielded :=
       Init (id interaction) :: forwarded ++ reported ++ closing;
     final := st;
     save_calls := [Views.interaction st];
     stored :=
       if save_raises sess then None else Some (Views.interaction st) |}.
End proxy.

(** [event: end], written by the proxy or passed on from upstream. *)
Definition is_end (y : sse) : bool :=
  match y with
  | End => true
  | Forwarded chunk => startswith chunk "event: end"
  | _ => false
  end.

Definition is_keep_alive (y : sse) : bool :=
  match y with KeepAlive _ => true | _ => false end.

End Views.

Import Rag.

(* ===================================================================== *)
(** * llm_service/rag_server.py *)
(* ===================================================================== *)

(** What the generators of the service hand to
    [StreamingResponse]: an SSE event of [RAGBot], or plain text. *)
Inductive piece :=
| Sse (ev : sse_event)
| Plain (text : string).

(** A served stream: what is sent, the exception that escapes the
    generator (if any) and the bot's conversation history afterwards
    ([None] when there is no bot). *)
Record served := {
  sent : list piece;
  escaped : option exn;
  history_then : option (list Turn)
}.

Module RagServer.

Definition rag_bot_stream_generator (rag_bot_instance : option RAGBot)
    (query : string) (g : Generation) : served :=
  match rag_bot_instance with
  | None =>
      {| sent := [Plain ("[Error: RAG Service not initialized properly.]" +:+ nl)];
         escaped := None;
         history_then := None |}
  | Some bot =>
      match retrieve_documents bot query with
      | Raise e =>
          {| sent := [Plain ("[Error during RAG processing: "
                               +:+ exn_name e +:+ "]" +:+ nl)];
             escaped := None;
             history_then := Some (conversation_history bot) |}
      | Ok retrieved_docs =>
          let r := generate_response_stream bot query retrieved_docs g in
          {| sent :=
               map Sse (yielded r)
                 ++ match raised r with
                    | Some e =>
                        [Plain ("[Error during RAG processing: "
                                  +:+ exn_name e +:+ "]" +:+ nl)]
                    | None => []
                    end;
             escaped := None;
             history_then := Some (history_after r) |}
      end
  end.

(** [error_gen] of the endpoint. *)
Definition error_gen : list piece :=
  [Sse (ErrorEvent "RAG Service not initialized properly."); Sse EndEvent].

(** The endpoint [POST /rag_generate_stream]: the generator it passes
    to [StreamingResponse]. *)
Definition generate_rag_response_stream (rag_bot_instance : option RAGBot)
    (query : string) (g : Generation) : served :=
  match rag_bot_instance with
  | None => {| sent := error_gen; escaped := None; history_then := None |}
  | Some bot =>
      let r := generate_response_stream bot query [] g in
      {| sent := map Sse (yielded r);
         escaped := raised r;
         history_then := Some (history_after r) |}
  end.

End RagServer.

(* ===================================================================== *)
(** * Definitions used to state the properties *)
(* ===================================================================== *)

(** [add_to_history] called once per turn, oldest turn first. *)
Definition record_turns (max_history_length : Z) (history turns : list Turn)
  : list Turn :=
  fold_left
    (fun h t => add_to_history max_history_length h (human t) (ai t))
    turns history.

Definition turn (n : nat) : Turn :=
  {| human := "question " +:+ pretty n; ai := "answer " +:+ pretty n |}.

(** The documents' sources without their extension, one per document
    that has a source. *)
Definition source_roots (documents : list Document) : list string :=
  omap (fun doc => (fun f => (splitext f).1) <$> source (metadata doc))
       documents.

(** ** The sources block as it reads in the answer *)

(** One line ["- <name>"] per source, the lines separated by newlines. *)
Fixpoint source_lines (sources : list string) : string :=
  match sources with
  | [] => ""
  | [s] => "- " +:+ s
  | s :: rest => "- " +:+ s +:+ nl +:+ source_lines rest
  end.

(** A blank line, a rule, the heading, then the lines. *)
Definition appended_sources (sources : list string) : string :=
  nl +:+ nl +:+ "---" +:+ nl +:+ "**Sources:**" +:+ nl
     +:+ source_lines sources.

(** ** The tokenizer as the design document words it *)

(** Lower-case, split on runs of non-alphanumeric characters, drop the
    empty tokens. *)
Definition tokenize_alnum (text : string) : list string :=
  filter (fun token => token <> EmptyString)
    (re_split (fun c => negb (isalnum c)) (lower text)).

Definition has_underscore (s : string) : bool :=
  negb (all_chars (fun c => negb (code c =? 95)%nat) s).

(** ** Degraded retrieval *)

(** The same bot with a dense index that is there and finds nothing. *)
Definition with_empty_dense (bot : RAGBot) : RAGBot :=
  {| llm_loaded := llm_loaded bot;
     vectorstore := Some (fun _ _ => Ok []);
     bm25_index := bm25_index bot;
     all_documents := all_documents bot;
     reranker := reranker bot;
     conversation_history := conversation_history bot;
     max_history_length := max_history_length bot |}.

(** ** The proxy's output, read by a client *)

(** An error reached the client: an [error] event of the proxy, or an
    upstream [event: error] chunk passed on. *)
Definition is_error (y : Views.sse) : bool :=
  match y with
  | Views.Error _ _ _ => true
  | Views.Forwarded chunk => startswith chunk "event: error"
  | _ => false
  end.

Definition is_forwarded (y : Views.sse) : bool :=
  match y with Views.Forwarded _ => true | _ => false end.

Definition forwarded_of (steps : list Views.step) : list Views.sse :=
  map (fun p => Views.Forwarded (Views.chunk p)) steps.

(** The piece of activity that precedes the chunk after [pre], and the
    clock reading taken when it was done: the last chunk of [pre], or
    the init event when [pre] is empty. *)
Definition previous_piece (interaction_id : string) (pre : list Views.step)
  : Views.sse :=
  match last pre with
  | Some p => Views.Forwarded (Views.chunk p)
  | None => Views.Init interaction_id
  end.

Definition last_activity_after (t0 : Q) (pre : list Views.step) : Q :=
  match last pre with
  | Some p => Views.resumed_at p
  | None => t0
  end.

Definition no_end_chunk (pre : list Views.step) : Prop :=
  Forall (fun p => startswith (Views.chunk p) "event: end" = false) pre.

(** ** Sample inputs *)

Definition sample_docs : list Document :=
  map (fun c => {| page_content := c;
                   metadata := {| source := None; rerank_score := None |} |})
      ["a"; "b"; "c"; "d"; "e"; "f"; "g"].

Definition bot_without_reranker : RAGBot :=
  {| llm_loaded := true; vectorstore := None; bm25_index := None;
     all_documents := sample_docs; reranker := None;
     conversation_history := []; max_history_length := 4 |}.

Definition doc_from (content : string) (src : string) : Document :=
  {| page_content := content;
     metadata := {| source := Some src; rerank_score := None |} |}.

Definition cited_docs : list Document :=
  [doc_from "x" "guide_b.pdf"; doc_from "y" "guide_a.txt";
   doc_from "z" "guide_b.md"].

Definition three_texts : Generation :=
  {| prepared := Ok (); streamed := ["a"; ""; "b"; "c"];
     stream_failure := None |}.

Definition silent_model : Generation :=
  {| prepared := Ok (); streamed := [""]; stream_failure := None |}.

Definition fever_doc : Document :=
  {| page_content := "fever in pregnancy";
     metadata := {| source := Some "fever.pdf"; rerank_score := None |} |}.

(** No vector store; a lexical index that scores the only document 1. *)
Definition sparse_only_bot : RAGBot :=
  {| llm_loaded := true;
     vectorstore := None;
     bm25_index := Some (fun _ => Ok [1%Q]);
     all_documents := [fever_doc];
     reranker := None;
     conversation_history := [];
     max_history_length := 4 |}.

Definition fresh_interaction : Views.Interaction :=
  {| Views.id := "42"; Views.final_response_text := None;
     Views.error_message := None |}.

Definition token_chunk (text : string) : string :=
  "event: token" +:+ nl +:+ "data: " +:+ text +:+ nl +:+ nl.

Definition end_chunk : string :=
  "event: end" +:+ nl +:+ "data: {}" +:+ nl +:+ nl.

Definition at_time (t : Q) (chunk : string) : Views.step :=
  {| Views.received_at := t; Views.chunk := chunk; Views.resumed_at := t |}.

(** A stand-in for [json.loads] that reads every payload as
    [{"token": <payload>}]. *)
Definition loads_token (payload : string) : option Views.json :=
  Some (Views.JObject [("token", Views.JString payload)]).

Definition str_blank (x : Views.json) : string := "".

Definition slow_session : Views.session :=
  {| Views.init_resumed_at := 100;
     Views.service :=
       Views.Responds 200 (Ok "")
         ([at_time 101 (token_chunk "Hel")]
            ++ at_time 117 (token_chunk "lo") :: [at_time 118 end_chunk])
         Views.Exhausted;
     Views.save_raises := false |}.

(** ** Rank fusion as the design document states it *)

(** The 0-based position of the first element equal to [x]. *)
Definition rank_of `{EqDecision A} (x : A) (l : list A) : option nat :=
  fst <$> list_find (fun y => y = x) l.

(** The dense rank the design document speaks of: the 0-based position
    of document [d] in the dense results. *)
Definition dense_rank (dense_results : list (Document * Q))
    (all_documents : list Document) (d : nat) : option nat :=
  doc ← all_documents !! d;
  rank_of (page_content doc) ((fun x => page_content x.1) <$> dense_results).

(** Document [j] is ahead of document [d] in the sparse ranking: it has
    a greater score, or the same score and a smaller corpus index. *)
Definition ahead (sparse_scores : list Q) (j d : nat) : bool :=
  Qltb (score_at sparse_scores d) (score_at sparse_scores j)
  || (Qeq_bool (score_at sparse_scores j) (score_at sparse_scores d)
      && (j <? d)%nat).

(** The 0-based position of [d] in the sparse ranking: the number of
    documents ahead of it. *)
Definition sparse_position (sparse_scores : list Q) (d : nat) : nat :=
  length (filter (fun j => ahead sparse_scores j d = true)
                 (seq 0 (length sparse_scores))).

(** The sparse rank: the position, for a document with a positive score
    among the top [2 * over_retrieve_k = 40]. *)
Definition sparse_rank (sparse_scores : list Q) (d : nat) : option nat :=
  let r := sparse_position sparse_scores d in
  if Qltb 0 (score_at sparse_scores d) && (r <? 40)%nat then Some r else None.

(** The contribution of a list in which the document has rank [r]. *)
Definition reciprocal_rank (r : nat) : Q :=
  (1 / (60 + inject_Z (Z.of_nat r)))%Q.

(** The fused score as the document states it: the sum of [1/(60 + r)]
    over the lists in which [d] has a rank; [None] when it has none. *)
Definition expected_fused (dense_results : list (Document * Q))
    (all_documents : list Document) (sparse_scores : list Q) (d : nat)
  : option Q :=
  match dense_rank dense_results all_documents d,
        sparse_rank sparse_scores d with
  | Some r, Some r' => Some (reciprocal_rank r + reciprocal_rank r')%Q
  | Some r, None => Some (reciprocal_rank r)
  | None, Some r' => Some (reciprocal_rank r')
  | None, None => None
  end.

(** The documents that have a fused score, in corpus order. *)
Definition scored (dense_results : list (Document * Q))
    (all_documents : list Document) (sparse_scores : list Q) : list nat :=
  filter (fun d => is_Some (expected_fused dense_results all_documents
                              sparse_scores d))
         (seq 0 (length all_documents)).

Definition same_score (a b : option Q) : Prop :=
  match a, b with
  | Some x, Some y => (x == y)%Q
  | None, None => True
  | _, _ => False
  end.

Definition apply_ops (ops : list (nat * nat)) (rrf : list (nat * Q))
  : list (nat * Q) :=
  fold_left (fun rrf op => rrf_add op.1 op.2 rrf) ops rrf.

(** The fusion loops as lists of (document index, rank) contributions. *)
Definition dense_ops (dense_results : list (Document * Q))
    (all_documents : list Document) : list (nat * nat) :=
  omap (fun item : string * nat =>
          (fun idx => (idx, item.2))
            <$> dict_get item.1 (doc_content_to_index all_documents))
       (dense_ranks dense_results).

Definition sparse_ops (sparse_scores : list Q) : list (nat * nat) :=
  omap (fun item : nat * nat =>
          if Qltb 0 (score_at sparse_scores item.2)
          then Some (item.2, item.1) else None)
       (enumerate (take 40 (sparse_ranked_indices sparse_scores))).

(** Descending order of a rational key. *)
Definition descending {A} (key : A -> Q) (a b : A) : Prop := (key b <= key a)%Q.

(** ** Sample inputs for rank fusion *)

Definition plain_doc (content : string) : Document :=
  {| page_content := content;
     metadata := {| source := None; rerank_score := None |} |}.

(** Document A is dense rank 0 and sparse rank 1, document B the
    other way round. *)
Definition two_docs : list Document := [plain_doc "A"; plain_doc "B"].
Definition two_dense : list (Document * Q) :=
  [(plain_doc "A", 0.1%Q); (plain_doc "B", 0.2%Q)].
Definition two_sparse : list Q := [1%Q; 2%Q].

(** Two documents with the same sparse score. *)
Definition tied_sparse : list Q := [2%Q; 2%Q].

(** Two corpus documents with the same text, one dense hit. *)
Definition twin_docs : list Document := [plain_doc "x"; plain_doc "x"].
Definition twin_dense : list (Document * Q) := [(plain_doc "x", 0.1%Q)].
Definition twin_sparse : list Q := [0%Q; 0%Q].

Definition new_turn (q a : string) : Turn := {| human := q; ai := a |}.

(** A token as the tokenizer produces it: not empty, made of word
    characters, without upper-case letters. *)
Definition well_formed_token (token : string) : Prop :=
  token <> "" /\ all_chars is_word token = true /\
  all_chars (fun c => negb (isupper c)) token = true.

(** The same chunk: equal text and equal source; the rerank score may
    differ. *)
Definition same_document (d d0 : Document) : Prop :=
  page_content d = page_content d0 /\
  source (metadata d) = source (metadata d0).

(** The order of rerank keys, [None] ([-inf]) lowest. *)
Definition key_le (a b : option Q) : Prop :=
  match a, b with
  | None, _ => True
  | Some _, None => False
  | Some x, Some y => (x <= y)%Q
  end.

Definition by_rerank_score (d1 d2 : Document) : Prop :=
  key_le (rerank_key d2) (rerank_key d1).

Definition failing : exn := Exn OtherException "RuntimeError" "index failure".

Definition bot_with_broken_bm25 : RAGBot :=
  {| llm_loaded := true;
     vectorstore := Some (fun _ _ => Ok [(fever_doc, 0.3%Q)]);
     bm25_index := Some (fun _ => Raise failing);
     all_documents := [fever_doc];
     reranker := None;
     conversation_history := [];
     max_history_length := 4 |}.

Definition scoring_bot : RAGBot :=
  {| llm_loaded := true; vectorstore := None; bm25_index := None;
     all_documents := sample_docs;
     reranker := Some (fun pairs => Ok [0.1%Q; 0.9%Q; 0.5%Q]);
     conversation_history := []; max_history_length := 4 |}.

Definition is_token_event (ev : sse_event) : bool :=
  match ev with TokenEvent _ => true | _ => false end.

Definition is_end_event (ev : sse_event) : bool :=
  match ev with EndEvent => true | _ => false end.

Definition is_sources_event (ev : sse_event) : bool :=
  match ev with SourcesEvent _ => true | _ => false end.

(** The texts of the token events, in the order the model produced
    them. *)
Definition streamed_tokens (g : Generation) : list string :=
  filter (fun new_text => new_text <> EmptyString) (streamed g).

(** [generate()] fails in its thread after two texts. *)
Definition stalled_midway : Generation :=
  {| prepared := Ok (); streamed := ["par"; "tial"];
     stream_failure := Some Blocked |}.

(** The sources a served stream cites. *)
Definition cited (s : served) : list string :=
  mjoin (omap (fun p => match p with
                         | Sse (SourcesEvent l) => Some l
                         | _ => None
                         end) (sent s)).

(** The chunks the read loop gets to: up to and including the first one
    that starts with [event: end]. *)
Fixpoint until_end (chunks : list Views.step) : list Views.step :=
  match chunks with
  | [] => []
  | s :: rest =>
      if startswith (Views.chunk s) "event: end" then [s]
      else s :: until_end rest
  end.

Definition reaches_end (chunks : list Views.step) : bool :=
  existsb (fun s => startswith (Views.chunk s) "event: end") chunks.

Definition is_own_error (y : Views.sse) : bool :=
  match y with Views.Error _ _ _ => true | _ => false end.

Definition passed_on (y : Views.sse) : bool :=
  is_forwarded y || Views.is_keep_alive y.

(** How a session can close: the events after the forwarded part. *)
Inductive closing_of (interaction_id : string) : list Views.sse -> Prop :=
| closing_silent : closing_of interaction_id []
| closing_end : closing_of interaction_id [Views.End]
| closing_error error detail :
    closing_of interaction_id [Views.Error error detail interaction_id]
| closing_error_end error detail :
    closing_of interaction_id
      [Views.Error error detail interaction_id; Views.End].

(** The locals when the [try] block is entered. *)
Definition initial_locals (i : Views.Interaction) (sess : Views.session)
  : Views.locals :=
  {| Views.full_response_text := "";
     Views.error_occurred := false;
     Views.last_activity_time := Views.init_resumed_at sess;
     Views.interaction := i |}.

Definition no_error_chunk (pre : list Views.step) : Prop :=
  Forall (fun p => startswith (Views.chunk p) "event: error" = false) pre.

Definition error_chunk : string :=
  "event: error" +:+ nl +:+ "data: {}" +:+ nl +:+ nl.

Definition healthy_session : Views.session :=
  {| Views.init_resumed_at := 100;
     Views.service :=
       Views.Responds 200 (Ok "")
         [at_time 101 (token_chunk "Hel"); at_time 102 (token_chunk "lo");
          at_time 103 end_chunk; at_time 104 (token_chunk "late")]
         Views.Exhausted;
     Views.save_raises := false |}.

(** The payloads that [generate_response_stream] hands to [json.dumps]. *)
Definition token_payload (token : string) : Views.json :=
  Views.JObject [("token", Views.JString token)].

Definition sources_payload (sources : list string) : Views.json :=
  Views.JObject [("sources", Views.JArray (map Views.JString sources))].

Definition error_payload (error : string) : Views.json :=
  Views.JObject [("error", Views.JString error)].

(** An event as the string the generator yields:
    [f"event: token\ndata: {token_payload}\n\n"] and the like. *)
Definition wire (json_dumps : Views.json -> string) (ev : sse_event) : string :=
  match ev with
  | TokenEvent token =>
      "event: token" +:+ nl +:+ "data: "
        +:+ json_dumps (token_payload token) +:+ nl +:+ nl
  | SourcesEvent sources =>
      "event: sources" +:+ nl +:+ "data: "
        +:+ json_dumps (sources_payload sources) +:+ nl +:+ nl
  | ErrorEvent error =>
      "event: error" +:+ nl +:+ "data: "
        +:+ json_dumps (error_payload error) +:+ nl +:+ nl
  | EndEvent => "event: end" +:+ nl +:+ "data: {}" +:+ nl +:+ nl
  end.

(** [s] is not empty and neither begins nor ends with white space. *)
Definition trimmed (s : string) : Prop :=
  s <> "" /\ lstrip s = s /\ lstrip (String.rev s) = String.rev s.

Definition one_line (s : string) : Prop :=
  all_chars (fun c => negb (Ascii.eqb c "010")) s = true.

(** [json.loads] reads back what [json.dumps] wrote for [v], and that
    text is one trimmed line, as it is for a dict written without
    [indent]. *)
Definition round_trips (json_dumps : Views.json -> string)
    (json_loads : string -> option Views.json) (v : Views.json) : Prop :=
  trimmed (json_dumps v) /\ one_line (json_dumps v) /\
  json_loads (json_dumps v) = Some v.

(** The text that a list of events carries up to its first end event. *)
Fixpoint event_text (events : list sse_event) : string :=
  match events with
  | [] => ""
  | TokenEvent token :: rest => token +:+ event_text rest
  | SourcesEvent sources :: rest => sources_block sources +:+ event_text rest
  | ErrorEvent _ :: rest => event_text rest
  | EndEvent :: _ => ""
  end.

(** An error event comes before the first end event. *)
Fixpoint reports_error (events : list sse_event) : bool :=
  match events with
  | [] => false
  | ErrorEvent _ :: _ => true
  | EndEvent :: _ => false
  | _ :: rest => reports_error rest
  end.

(** What the proxy has to decode in an event. *)
Definition readable (json_dumps : Views.json -> string)
    (json_loads : string -> option Views.json) (ev : sse_event) : Prop :=
  match ev with
  | TokenEvent token => round_trips json_dumps json_loads (token_payload token)
  | SourcesEvent sources =>
      sources <> [] /\
      round_trips json_dumps json_loads (sources_payload sources)
  | _ => True
  end.

(** Two states of the proxy that differ at most in the accumulated
    text. *)
Definition same_but_text (st st' : Views.locals) : Prop :=
  Views.error_occurred st = Views.error_occurred st' /\
  Views.last_activity_time st = Views.last_activity_time st' /\
  Views.interaction st = Views.interaction st'.

(** A small codec for the two payloads the proxy decodes. *)
Definition dumps_sample (v : Views.json) : string :=
  match v with
  | Views.JObject [(_, Views.JString text)] => "{t" +:+ text +:+ "}"
  | Views.JObject [(_, Views.JArray items)] =>
      "{s" +:+ join ","
                 (map (fun x => match x with
                                | Views.JString s => s
                                | _ => ""
                                end) items) +:+ "}"
  | _ => "{}"
  end.

Definition inner (s : string) : string :=
  String.rev (drop_chars 1 (String.rev (drop_chars 2 s))).

Definition loads_sample (s : string) : option Views.json :=
  if startswith s "{t" then Some (token_payload (inner s))
  else if startswith s "{s"
       then Some (sources_payload (split "," (inner s)))
       else None.

(* ===================================================================== *)
(** * Facts about the Python primitives *)
(* ===================================================================== *)

Section slices.
Context {A : Type}.
Implicit Types l : list A.

Lemma slice_to_nonneg (n : Z) l :
  (0 <= n)%Z -> slice_to n l = take (Z.to_nat n) l.
Proof.
  intros Hn. unfold slice_to.
  destruct (Z.ltb_spec n 0) as [?|_]; [lia|].
  destruct (Z.min_spec n (Z.of_nat (length l))) as [[Hlt ->]|[Hge ->]].
  - reflexivity.
  - rewrite Nat2Z.id, firstn_all. symmetry. apply take_ge. lia.
Qed.

Lemma slice_from_last (m : Z) l :
  (0 < m)%Z -> slice_from (- m) l = drop (length l - Z.to_nat m) l.
Proof.
  intros Hm. unfold slice_from.
  destruct (Z.ltb_spec (- m) 0) as [_|?]; [|lia].
  f_equal. lia.
Qed.

(** The slip of [l[-m:]] at [m = 0]: the whole list. *)
Lemma slice_from_minus_zero l : slice_from (- 0) l = l.
Proof. unfold slice_from. simpl. rewrite Z.min_l by lia. reflexivity. Qed.
End slices.

(* ===================================================================== *)
(** * Reranking *)
(* ===================================================================== *)

(** C4. If the reranker model is unavailable, or its prediction raises,
    a non-empty candidate list comes back as its first [k = 5]
    elements, in input order and with their metadata untouched; the
    result is not empty. *)
Theorem rerank_fallback_first_k (bot : RAGBot) (query : string)
    (docs : list Document) :
  docs <> [] ->
  (reranker bot = None \/
   exists predict e,
     reranker bot = Some predict /\
     predict (map (fun doc => (query, page_content doc)) docs) = Raise e) ->
  rerank_documents bot query docs = take 5 docs /\
  rerank_documents bot query docs <> [].
Proof.
  intros Hne Hfail.
  assert (Hres : rerank_documents bot query docs = take 5 docs).
  { unfold rerank_documents. destruct docs as [|d docs]; [done|].
    destruct Hfail as [-> | (predict & e & -> & ->)];
      apply (slice_to_nonneg 5); unfold k; lia. }
  split; [exact Hres|].
  rewrite Hres. destruct docs; [done|]. discriminate.
Qed.

Lemma rerank_fallback_first_k_witness :
  rerank_documents bot_without_reranker "q" sample_docs = take 5 sample_docs /\
  rerank_documents bot_without_reranker "q" sample_docs <> [].
Proof.
  apply (rerank_fallback_first_k bot_without_reranker "q" sample_docs).
  - discriminate.
  - left. reflexivity.
Defined.

(* ===================================================================== *)
(** * Conversation history *)
(* ===================================================================== *)

Lemma add_to_history_bounded (m : Z) (h : list Turn) (q a : string) :
  (0 < m)%Z -> (Z.of_nat (length h) <= m)%Z ->
  (Z.of_nat (length (add_to_history m h q a)) <= m)%Z.
Proof.
  intros Hm Hh. unfold add_to_history.
  destruct (Z.ltb_spec m (Z.of_nat (length (h ++ [{| human := q; ai := a |}]))))
    as [Hlt|Hge]; [|exact Hge].
  rewrite slice_from_last by done. rewrite length_drop, length_app. simpl. lia.
Qed.

(** X1. For a positive bound [m], after any number of calls of
    [add_to_history] on an empty history, the history is the last [m]
    turns recorded, oldest first. *)
Lemma record_turns_fifo (m : Z) (turns : list Turn) :
  (0 < m)%Z ->
  record_turns m [] turns = drop (length turns - Z.to_nat m) turns.
Proof.
  intros Hm. induction turns as [|t turns IH] using rev_ind.
  - reflexivity.
  - unfold record_turns in *. rewrite fold_left_app. simpl. rewrite IH.
    unfold add_to_history. destruct t as [q a]. simpl.
    set (h := drop (length turns - Z.to_nat m) turns ++ [{| human := q; ai := a |}]).
    assert (Hlen : length h = S (length turns - (length turns - Z.to_nat m))).
    { subst h. rewrite length_app, length_drop. simpl. lia. }
    rewrite length_app. simpl.
    destruct (Z.ltb_spec m (Z.of_nat (length h))) as [Hlt|Hge].
    + rewrite slice_from_last by done. subst h.
      rewrite drop_app_le by (rewrite length_drop; lia).
      rewrite drop_drop. rewrite drop_app_le by lia.
      f_equal. f_equal. rewrite length_app, length_drop in Hlen |- *. simpl in *. lia.
    + subst h. rewrite drop_app_le by lia. f_equal. f_equal. lia.
Qed.

(** C5. With [max_history_length = 0] nothing is ever evicted: the trim
    [history[-0:]] keeps the whole list, so three turns recorded into
    an empty history leave three turns, not zero. *)
Theorem history_bound_zero_keeps_everything :
  record_turns 0 [] [turn 1; turn 2; turn 3] = [turn 1; turn 2; turn 3] /\
  forall turns : list Turn, record_turns 0 [] turns = turns.
Proof.
  split; [reflexivity|].
  intros turns. induction turns as [|t turns IH] using rev_ind; [reflexivity|].
  unfold record_turns in *. rewrite fold_left_app. simpl. rewrite IH.
  unfold add_to_history.
  destruct (Z.ltb_spec 0 (Z.of_nat (length (turns ++ [{| human := human t; ai := ai t |}]))));
    [rewrite slice_from_minus_zero|]; by destruct t.
Qed.

(* ===================================================================== *)
(** * Streamed generation *)
(* ===================================================================== *)

Section insertion_sort.
Context {A : Type} (precedes : A -> A -> bool) (R : relation A).
Context `{!Transitive R}.
Hypothesis precedes_true : forall y x, precedes y x = true -> R y x.
Hypothesis precedes_false : forall y x, precedes y x = false -> R x y.

Lemma insert_by_perm x l : insert_by precedes x l ≡ₚ x :: l.
Proof.
  induction l as [|y l IH]; simpl; [done|].
  destruct (precedes y x); [|done].
  rewrite IH. apply Permutation_swap.
Qed.

Lemma insert_by_sorted x l :
  StronglySorted R l -> StronglySorted R (insert_by precedes x l).
Proof.
  induction 1 as [|y l Hs IH Hall]; simpl.
  - repeat constructor.
  - destruct (precedes y x) eqn:Hp.
    + constructor; [exact IH|].
      rewrite insert_by_perm. constructor; [by apply precedes_true|done].
    + apply precedes_false in Hp. constructor; [by constructor|].
      constructor; [done|].
      eapply Forall_impl; [exact Hall|]. intros z Hz. by transitivity y.
Qed.

Lemma foldr_insert_by_perm l : foldr (insert_by precedes) [] l ≡ₚ l.
Proof.
  induction l as [|x l IH]; simpl; [done|].
  by rewrite insert_by_perm, IH.
Qed.

Lemma foldr_insert_by_sorted l :
  StronglySorted R (foldr (insert_by precedes) [] l).
Proof.
  induction l as [|x l IH]; simpl; [constructor|].
  by apply insert_by_sorted.
Qed.
End insertion_sort.

Lemma string_ltb_true (y x : string) : String.ltb y x = true -> String.le y x.
Proof.
  unfold String.le, String.leb, String.ltb.
  destruct (String.compare y x); done.
Qed.

Lemma string_ltb_false (y x : string) : String.ltb y x = false -> String.le x y.
Proof.
  unfold String.le, String.leb, String.ltb.
  rewrite (String.compare_antisym y x).
  destruct (String.compare x y); done.
Qed.

Lemma sorted_sources_perm (documents : list Document) :
  sorted_sources documents ≡ₚ remove_dups (source_roots documents).
Proof. apply foldr_insert_by_perm. Qed.

Lemma sorted_sources_sorted (documents : list Document) :
  StronglySorted String.le (sorted_sources documents).
Proof.
  apply foldr_insert_by_sorted.
  - apply _.
  - intros y x. apply string_ltb_true.
  - intros y x. apply string_ltb_false.
Qed.

Lemma elem_of_sorted_sources (documents : list Document) (s : string) :
  s ∈ sorted_sources documents <->
  exists doc f, doc ∈ documents /\ source (metadata doc) = Some f /\
                s = (splitext f).1.
Proof.
  rewrite sorted_sources_perm, elem_of_remove_dups.
  unfold source_roots. rewrite list_elem_of_omap. split.
  - intros (doc & Hdoc & Hs). destruct (source (metadata doc)) as [f|] eqn:Hf;
      simplify_eq/=. by exists doc, f.
  - intros (doc & f & Hdoc & Hf & ->). exists doc. by rewrite Hf.
Qed.

Lemma nonempty_true (s : string) : nonempty s = true <-> s <> "".
Proof. destruct s; simpl; split; (done || congruence). Qed.

Lemma sources_block_nonempty (sources : list string) :
  nonempty (sources_block sources) = true.
Proof. reflexivity. Qed.

Lemma nonempty_app_r (s t : string) :
  nonempty t = true -> nonempty (s +:+ t) = true.
Proof. destruct s, t; simpl; done. Qed.

Lemma sources_block_lines (sources : list string) :
  sources_block sources = appended_sources sources.
Proof.
  unfold sources_block, appended_sources. do 5 f_equal. unfold join.
  induction sources as [|s rest IH]; [done|].
  destruct rest as [|s' rest]; [done|].
  simpl map in *. cbn [String.concat source_lines] in *. by rewrite IH.
Qed.

(** C9. When generation finishes, the sources of the retrieved
    documents, without their file extension, deduplicated and sorted,
    are emitted as one [sources] event after all [token] events and
    before [end].  The answer text, which is what is committed to
    history, is the generated text followed by the sources block: a
    blank line, a rule, the heading [**Sources:**] and one line
    ["- <name>"] per source of the event, in the same order.  Without
    sources there is no [sources] event and the answer is the generated
    text. *)
Theorem sources_event_follows_tokens (bot : RAGBot) (question : string)
    (documents : list Document) (g : Generation) :
  llm_loaded bot = true -> prepared g = Ok () -> stream_failure g = None ->
  let r := generate_response_stream bot question documents g in
  let tokens := filter (fun t => t <> "") (streamed g) in
  let sources := sorted_sources documents in
  (forall s, s ∈ sources <->
     exists doc f, doc ∈ documents /\ source (metadata doc) = Some f /\
                   s = (splitext f).1) /\
  NoDup sources /\ StronglySorted String.le sources /\
  (sources <> [] ->
     yielded r = map TokenEvent tokens ++ [SourcesEvent sources; EndEvent] /\
     answer r = Some (join "" tokens +:+ appended_sources sources) /\
     (question <> "" ->
      history_after r =
        add_to_history (max_history_length bot) (conversation_history bot)
          question (join "" tokens +:+ appended_sources sources))) /\
  (sources = [] ->
     yielded r = map TokenEvent tokens ++ [EndEvent] /\
     answer r = Some (join "" tokens) /\
     (question <> "" -> tokens <> [] ->
      history_after r =
        add_to_history (max_history_length bot) (conversation_history bot)
          question (join "" tokens))).
Proof.
  intros Hllm Hprep Hfail r tokens sources.
  split; [apply elem_of_sorted_sources|].
  split; [subst sources; rewrite sorted_sources_perm; apply NoDup_remove_dups|].
  split; [apply sorted_sources_sorted|].
  subst r. unfold generate_response_stream.
  rewrite Hllm, Hprep, Hfail. simpl. fold tokens. fold sources.
  split.
  - intros Hne. destruct sources as [|s0 rest] eqn:Hs; [done|].
    unfold finish. simpl. rewrite <- (assoc_L (++)). simpl.
    rewrite sources_block_lines.
    repeat split; try done.
    intros Hq. apply nonempty_true in Hq. rewrite Hq. simpl.
    by rewrite nonempty_app_r.
  - intros ->. unfold finish. simpl. repeat split; try done.
    intros Hq%nonempty_true Htok. rewrite Hq. simpl.
    assert (Hj : nonempty (join "" tokens) = true); [|by rewrite Hj].
    subst tokens. destruct (filter _ (streamed g)) as [|t rest] eqn:Hf; [done|].
    assert (Ht : t <> "").
    { assert (Hin : t ∈ filter (fun t => t <> "") (streamed g))
        by (rewrite Hf; left).
      by apply list_elem_of_filter in Hin as [? _]. }
    unfold join. simpl. destruct rest; destruct t; simpl; done.
Qed.

Lemma sources_event_follows_tokens_witness :
  let r := generate_response_stream bot_without_reranker "q" cited_docs
             three_texts in
  let text := "abc" +:+ nl +:+ nl +:+ "---" +:+ nl +:+ "**Sources:**" +:+ nl
                +:+ "- guide_a" +:+ nl +:+ "- guide_b" in
  yielded r = [TokenEvent "a"; TokenEvent "b"; TokenEvent "c";
               SourcesEvent ["guide_a"; "guide_b"]; EndEvent] /\
  answer r = Some text /\
  history_after r = [{| human := "q"; ai := text |}].
Proof.
  destruct (sources_event_follows_tokens bot_without_reranker "q"
              cited_docs three_texts eq_refl eq_refl eq_refl)
    as (_ & _ & _ & Hsome & _).
  destruct Hsome as (Hy & Ha & Hh); [vm_compute; discriminate|].
  split; [|split].
  - etrans; [exact Hy|]. vm_compute. reflexivity.
  - etrans; [exact Ha|]. vm_compute. reflexivity.
  - etrans; [apply Hh; discriminate|]. vm_compute. reflexivity.
Defined.

(** C10. A run leaves the conversation history as it was when the
    question is empty, when the accumulated answer is empty, or when
    the run ends before an answer is accumulated; the pair
    (question, answer) is appended, through [add_to_history], exactly
    when both are non-empty. *)
Theorem history_needs_question_and_answer (bot : RAGBot) (question : string)
    (documents : list Document) (g : Generation) :
  let r := generate_response_stream bot question documents g in
  (question = "" \/ answer r = None \/ answer r = Some "" ->
   history_after r = conversation_history bot) /\
  (forall a, question <> "" -> answer r = Some a -> a <> "" ->
   history_after r =
     add_to_history (max_history_length bot) (conversation_history bot)
       question a).
Proof.
  intros r.
  assert (Hfin : forall events full,
    (question = "" \/ answer (finish bot question events full) = None \/
     answer (finish bot question events full) = Some "" ->
     history_after (finish bot question events full) = conversation_history bot) /\
    (forall a, question <> "" ->
       answer (finish bot question events full) = Some a -> a <> "" ->
       history_after (finish bot question events full) =
         add_to_history (max_history_length bot) (conversation_history bot)
           question a)).
  { intros events full. unfold finish. simpl. split.
    - intros [-> | [? | [= ->]]]; [done|done|]. by rewrite andb_false_r.
    - intros a Hq [= ->] Ha. apply nonempty_true in Hq, Ha. by rewrite Hq, Ha. }
  subst r. unfold generate_response_stream.
  destruct (llm_loaded bot); simpl; [|split; [done|intros; done]].
  destruct (prepared g); simpl; [|split; [done|intros; done]].
  destruct (stream_failure g) as [[e|]|];
    [apply Hfin|split; [done|intros; done]|].
  destruct (sorted_sources documents); apply Hfin.
Qed.

Lemma history_needs_question_and_answer_witness :
  history_after (generate_response_stream bot_without_reranker "q" []
                   silent_model) = [].
Proof.
  apply (proj1 (history_needs_question_and_answer bot_without_reranker "q" []
                  silent_model)).
  right. right. reflexivity.
Defined.

(* ===================================================================== *)
(** * The SSE proxy *)
(* ===================================================================== *)

Lemma startswith_app (s p : string) :
  startswith s p = true -> exists rest, s = p +:+ rest.
Proof.
  unfold startswith. revert s. induction p as [|a p IH]; intros s; simpl.
  - intros _. by exists s.
  - destruct s as [|b s]; simpl; [done|].
    destruct (Ascii.ascii_dec a b) as [->|]; [|done].
    intros [rest ->]%IH. by exists rest.
Qed.

Lemma Qltb_true (x y : Q) : Qltb x y = true <-> (x < y)%Q.
Proof.
  unfold Qltb. rewrite negb_true_iff, <- not_true_iff_false, Qle_bool_iff.
  split; [apply Qnot_le_lt | apply Qlt_not_le].
Qed.

Lemma Qltb_false (x y : Q) : Qltb x y = false <-> (y <= x)%Q.
Proof. unfold Qltb. by rewrite negb_false_iff, Qle_bool_iff. Qed.

Section proxy_facts.
Variable json_loads : string -> option Views.json.
Variable py_str : Views.json -> string.
Variable RAG_SERVICE_URL : string.

Abbreviation inspected := (Views.inspected json_loads py_str).
Abbreviation stream_loop := (Views.stream_loop json_loads py_str).
Abbreviation attempt := (Views.attempt json_loads py_str).
Abbreviation handle := (Views.handle RAG_SERVICE_URL).
Abbreviation proxy :=
  (Views.rag_service_sse_proxy_generator json_loads py_str RAG_SERVICE_URL).

(** What inspecting a chunk can change. *)
Lemma inspected_effect (c : string) (st st' : Views.locals) (leave : bool) :
  inspected c st = (st', leave) ->
  Views.interaction st' = Views.interaction st /\
  Views.last_activity_time st' = Views.last_activity_time st /\
  Views.error_occurred st' =
    Views.error_occurred st || startswith c "event: error" /\
  (leave = true -> startswith c "event: end" = true).
Proof.
  unfold Views.inspected, Views.inspect.
  destruct (startswith c "event: token") eqn:Htok.
  { apply startswith_app in Htok as [rest ->].
    change (startswith ("event: token" +:+ rest) "event: error") with false.
    rewrite orb_false_r.
    destruct (Views.find_data_line _) as [line|]; simpl;
      [|intros [= <- <-]; done].
    destruct (Views.load_data _ _) as [data|]; simpl; [|intros [= <- <-]; done].
    destruct (Views.get _ _ _) as [token|]; simpl; [|intros [= <- <-]; done].
    destruct (Views.add_str _ _) as [text|]; simpl; intros [= <- <-]; done. }
  destruct (startswith c "event: sources") eqn:Hsrc.
  { apply startswith_app in Hsrc as [rest ->].
    change (startswith ("event: sources" +:+ rest) "event: error") with false.
    rewrite orb_false_r.
    destruct (Views.find_data_line _) as [line|]; simpl;
      [|intros [= <- <-]; done].
    destruct (Views.load_data _ _) as [data|]; simpl; [|intros [= <- <-]; done].
    destruct (Views.get _ _ _) as [sources_list|]; simpl;
      [|intros [= <- <-]; done].
    destruct (Views.truthy _); simpl; [|intros [= <- <-]; done].
    destruct (Views.iterate _) as [items|]; simpl; intros [= <- <-]; done. }
  destruct (startswith c "event: error") eqn:Herr.
  { simpl. intros [= <- <-]. simpl. by rewrite orb_true_r. }
  rewrite orb_false_r.
  destruct (startswith c "event: end") eqn:Hend; simpl; intros [= <- <-]; done.
Qed.

(** The loop never touches the interaction record; it raises the error
    flag exactly when it passes on an [event: error] chunk. *)
Lemma stream_loop_effect (chunks : list Views.step) (fin : Views.stream_end)
    (st st' : Views.locals) (ys : list Views.sse) (e : option exn) :
  stream_loop chunks fin st = (ys, st', e) ->
  Views.interaction st' = Views.interaction st /\
  Views.error_occurred st' = Views.error_occurred st || existsb is_error ys.
Proof.
  revert st st' ys e. induction chunks as [|s rest IH]; intros st st' ys e; simpl.
  - destruct fin; intros [= <- <- <-]; simpl; by rewrite orb_false_r.
  - unfold Views.keep_alive.
    set (st1 := if Qltb 15 _ then _ else _).
    assert (Hst1 : Views.interaction st1.2 = Views.interaction st /\
                   Views.error_occurred st1.2 = Views.error_occurred st /\
                   existsb is_error st1.1 = false).
    { subst st1. destruct (Qltb 15 _); done. }
    destruct st1 as [ping st1]. simpl in Hst1. destruct Hst1 as (Hi & He & Hp).
    destruct (inspected (Views.chunk s) _) as [st2 leave] eqn:Hins.
    apply inspected_effect in Hins as (Hi2 & _ & He2 & _). simpl in Hi2, He2.
    destruct leave.
    + intros [= <- <- <-]. rewrite existsb_app, Hp. simpl.
      rewrite orb_false_r. split; congruence.
    + destruct (stream_loop rest fin st2) as [[more st3] e3] eqn:Hrest.
      apply IH in Hrest as [Hi3 He3].
      intros [= <- <- <-]. rewrite existsb_app, Hp. simpl.
      split; [congruence|].
      rewrite He3, He2, He. by rewrite orb_assoc.
Qed.

(** C1. A session in which the RAG service answers with a status other
    than 200 (here 500) and a readable body yields the init event and
    one error event, and no [end] event at all. *)
Theorem non_200_session_yields_no_end (query_text : string)
    (i : Views.Interaction) (t0 : Q) (save : bool) (body : string)
    (chunks : list Views.step) (fin : Views.stream_end) :
  let r := proxy query_text i
             {| Views.init_resumed_at := t0;
                Views.service := Views.Responds 500 (Ok body) chunks fin;
                Views.save_raises := save |} in
  Views.yielded r =
    [Views.Init (Views.id i);
     Views.Error ("RAG service returned error 500: " +:+ body) None
       (Views.id i)] /\
  filter (fun y => Views.is_end y = true) (Views.yielded r) = [].
Proof. split; reflexivity. Qed.

(** The handlers of the [except] clauses do write the [end] event: a
    session whose connection fails yields init, error, end. *)
Lemma failed_connection_ends_once (query_text : string)
    (i : Views.Interaction) (t0 : Q) (save : bool) (e : exn) :
  exists error detail,
    Views.yielded
      (proxy query_text i
         {| Views.init_resumed_at := t0;
            Views.service := Views.ConnectFails e;
            Views.save_raises := save |})
    = [Views.Init (Views.id i); Views.Error error detail (Views.id i);
       Views.End].
Proof.
  unfold Views.rag_service_sse_proxy_generator, Views.attempt, Views.handle.
  simpl. destruct (exn_kind e); simpl; eauto.
Qed.

(** On the successful path the upstream [event: end] chunk is passed on
    and the proxy then writes an [end] event of its own. *)
Lemma forwarded_end_is_doubled (query_text : string) (i : Views.Interaction)
    (t0 t1 : Q) (save : bool) (body : outcome string)
    (post : list Views.step) (fin : Views.stream_end) :
  (t1 - t0 <= 15)%Q ->
  Views.yielded
    (proxy query_text i
       {| Views.init_resumed_at := t0;
          Views.service :=
            Views.Responds 200 body (at_time t1 end_chunk :: post) fin;
          Views.save_raises := save |})
  = [Views.Init (Views.id i); Views.Forwarded end_chunk; Views.End].
Proof.
  intros Hgap%Qltb_false.
  unfold Views.rag_service_sse_proxy_generator, Views.attempt. simpl.
  unfold Views.keep_alive. simpl. rewrite Hgap. reflexivity.
Qed.

Lemma attempt_effect (sess : Views.session) (st st' : Views.locals)
    (ys : list Views.sse) (e : option exn) :
  attempt sess st = (ys, st', e) ->
  Views.id (Views.interaction st') = Views.id (Views.interaction st) /\
  Views.final_response_text (Views.interaction st') =
    Views.final_response_text (Views.interaction st) /\
  Views.error_occurred st' = Views.error_occurred st || existsb is_error ys.
Proof.
  unfold Views.attempt.
  destruct (Views.service sess) as [e0|status body chunks fin].
  { intros [= <- <- <-]. simpl. by rewrite orb_false_r. }
  destruct (decide (status <> 200%Z)) as [Hst|Hst].
  - destruct body as [detail|e0]; intros [= <- <- <-]; simpl;
      [by rewrite orb_true_r | by rewrite orb_false_r].
  - intros [Hi He]%stream_loop_effect. by rewrite Hi.
Qed.

Lemma handle_effect (e : exn) (st : Views.locals) :
  exists error detail msg,
    handle e st =
      ([Views.Error error detail (Views.id (Views.interaction st)); Views.End],
       Views.fail_with msg st).
Proof. unfold Views.handle. destruct (exn_kind e); eauto. Qed.

Lemma capture_failed (msg : string) (st : Views.locals) :
  Views.capture (Views.fail_with msg st) = Views.fail_with msg st.
Proof. unfold Views.capture. simpl. by rewrite andb_false_r. Qed.

(** C8. Every session calls [save()] exactly once, on the record as the
    [finally] block leaves it.  The accumulated text is written to
    [final_response_text] if it is non-empty and no error reached the
    session (no error event of the proxy, no upstream [event: error]
    chunk); otherwise the field keeps the value it had.  A failed
    connection and a status other than 200 count as errors. *)
Theorem response_text_saved_once (query_text : string)
    (i : Views.Interaction) (sess : Views.session) :
  let r := proxy query_text i sess in
  let text := Views.full_response_text (Views.final r) in
  let upstream_error := existsb is_error (Views.yielded r) in
  Views.error_occurred (Views.final r) = upstream_error /\
  Views.save_calls r = [Views.interaction (Views.final r)] /\
  Views.stored r =
    (if Views.save_raises sess then None
     else Some (Views.interaction (Views.final r))) /\
  Views.final_response_text (Views.interaction (Views.final r)) =
    (if nonempty text && negb upstream_error then Some text
     else Views.final_response_text i) /\
  Views.id (Views.interaction (Views.final r)) = Views.id i /\
  match Views.service sess with
  | Views.ConnectFails _ => upstream_error = true
  | Views.Responds status_code _ _ _ =>
      status_code <> 200%Z -> upstream_error = true
  end.
Proof.
  intros r text upstream_error.
  subst text upstream_error r. unfold Views.rag_service_sse_proxy_generator.
  set (st0 := {| Views.full_response_text := "";
                 Views.error_occurred := false;
                 Views.last_activity_time := Views.init_resumed_at sess;
                 Views.interaction := i |}).
  destruct (attempt sess st0) as [[forwarded st1] exc] eqn:Hatt.
  pose proof (attempt_effect _ _ _ _ _ Hatt) as (Hid & Htext & Herr).
  simpl in Hid, Htext, Herr.
  assert (Hexc : match Views.service sess with
                 | Views.ConnectFails _ => is_Some exc
                 | Views.Responds status_code _ _ _ =>
                     status_code <> 200%Z ->
                     is_Some exc \/ existsb is_error forwarded = true
                 end).
  { revert Hatt. unfold Views.attempt.
    destruct (Views.service sess) as [e0|status body chunks fin].
    - intros [= <- <- <-]. eauto.
    - intros Hatt Hst. destruct (decide (status <> 200%Z)); [|done].
      destruct body; simplify_eq/=; eauto. }
  destruct exc as [e|].
  - destruct (handle_effect e st1) as (error & detail & msg & ->).
    simpl. rewrite capture_failed, !existsb_app. simpl.
    rewrite orb_true_r. simpl. rewrite andb_false_r.
    repeat split; try done.
    destruct (Views.service sess); done.
  - simpl. unfold Views.capture.
    destruct (nonempty (Views.full_response_text st1)) eqn:Hne;
      destruct (Views.error_occurred st1) eqn:He1; simpl;
      rewrite ?He1, ?Hne; simpl;
      rewrite !existsb_app; simpl; rewrite ?orb_false_r, <- Herr; simpl;
      (repeat split; try done);
      destruct (Views.service sess); try done;
      intros Hst; destruct (Hexc Hst) as [[? [=]]|Hf]; congruence.
Qed.
(** ** Keep-alive lines *)

Lemma last_activity_after_cons (t0 : Q) (s : Views.step)
    (pre : list Views.step) :
  last_activity_after t0 (s :: pre) =
    last_activity_after (Views.resumed_at s) pre.
Proof. unfold last_activity_after. rewrite last_cons. by destruct (last pre). Qed.

Lemma keep_alive_fst (t : Q) (st : Views.locals) :
  (Views.keep_alive t st).1 =
    if Qltb 15 (t - Views.last_activity_time st)
    then [Views.KeepAlive (int_of t)] else [].
Proof. unfold Views.keep_alive. by destruct (Qltb _ _). Qed.

(** An iteration yields the keep-alive line, if one is due, and then
    the chunk. *)
Lemma stream_loop_head (s : Views.step) (rest : list Views.step)
    (fin : Views.stream_end) (st : Views.locals) :
  exists more st' e,
    stream_loop (s :: rest) fin st =
      ((Views.keep_alive (Views.received_at s) st).1
         ++ Views.Forwarded (Views.chunk s) :: more, st', e).
Proof.
  simpl. destruct (Views.keep_alive _ _) as [ping st1]. simpl.
  destruct (inspected _ _) as [st2 leave]. destruct leave; [by eauto|].
  destruct (stream_loop rest fin st2) as [[more st3] e]. eauto.
Qed.

(** The loop over a prefix without [event: end] chunk, then the rest. *)
Lemma stream_loop_prefix (pre : list Views.step) (st : Views.locals) :
  no_end_chunk pre ->
  exists ys1 st1,
    (forall rest fin,
       stream_loop (pre ++ rest) fin st =
         let '(more, st', e) := stream_loop rest fin st1 in
         (ys1 ++ more, st', e)) /\
    Views.last_activity_time st1 =
      last_activity_after (Views.last_activity_time st) pre /\
    filter (fun y => is_forwarded y = true) ys1 = forwarded_of pre /\
    match last pre with
    | None => ys1 = []
    | Some p => exists b, ys1 = b ++ [Views.Forwarded (Views.chunk p)]
    end.
Proof.
  revert st. induction pre as [|s pre IH]; intros st Hpre.
  { exists [], st. repeat split; try done.
    intros rest fin. simpl. by destruct (stream_loop rest fin st) as [[??]?]. }
  apply Forall_cons in Hpre as [Hs Hpre].
  destruct (Views.keep_alive (Views.received_at s) st) as [ping st0] eqn:Hka.
  destruct (inspected (Views.chunk s)
              (Views.set_last_activity (Views.resumed_at s) st0))
    as [st2 leave] eqn:Hins.
  pose proof (inspected_effect _ _ _ _ Hins) as (_ & Hlast & _ & Hleave).
  destruct leave; [by rewrite Hleave in Hs|]. clear Hleave.
  destruct (IH st2 Hpre) as (ys1 & st1 & Hloop & Hlast1 & Hfwd & Hend).
  exists (ping ++ Views.Forwarded (Views.chunk s) :: ys1), st1.
  split; [|split; [|split]].
  - intros rest fin. simpl. rewrite Hka, Hins, Hloop.
    destruct (stream_loop rest fin st1) as [[more st'] e].
    by rewrite <- (assoc_L (++)).
  - rewrite last_activity_after_cons, Hlast1, Hlast. done.
  - assert (Hping : filter (fun y => is_forwarded y = true) ping = []).
    { pose proof (keep_alive_fst (Views.received_at s) st) as Hp.
      rewrite Hka in Hp. simpl in Hp. rewrite Hp. by destruct (Qltb _ _). }
    rewrite filter_app, Hping. simpl. rewrite filter_cons_True by done.
    by rewrite Hfwd.
  - rewrite last_cons. destruct (last pre) as [p|].
    + destruct Hend as [b ->].
      exists (ping ++ Views.Forwarded (Views.chunk s) :: b).
      by rewrite <- (assoc_L (++)).
    + subst ys1. by exists ping.
Qed.

(** C7. Between two consecutive pieces of forwarded activity (the init
    event or a chunk, and the next chunk) the proxy yields exactly one
    keep-alive line [: ping <ts>] when more than 15 seconds passed
    between them, and nothing when 10 seconds or less did. *)
Theorem keep_alive_fills_long_gaps (query_text : string)
    (i : Views.Interaction) (t0 : Q) (save : bool) (body : outcome string)
    (pre post : list Views.step) (s : Views.step) (fin : Views.stream_end) :
  no_end_chunk pre ->
  let r := proxy query_text i
             {| Views.init_resumed_at := t0;
                Views.service :=
                  Views.Responds 200 body (pre ++ s :: post) fin;
                Views.save_raises := save |} in
  let gap := (Views.received_at s - last_activity_after t0 pre)%Q in
  exists before pings after,
    Views.yielded r =
      before ++ previous_piece (Views.id i) pre
             :: pings ++ Views.Forwarded (Views.chunk s) :: after /\
    filter (fun y => is_forwarded y = true)
      (before ++ [previous_piece (Views.id i) pre]) = forwarded_of pre /\
    ((15 < gap)%Q -> pings = [Views.KeepAlive (int_of (Views.received_at s))]) /\
    ((gap <= 10)%Q -> pings = []).
Proof.
  intros Hpre r gap. subst r.
  unfold Views.rag_service_sse_proxy_generator, Views.attempt. simpl.
  set (st := {| Views.full_response_text := "";
                Views.error_occurred := false;
                Views.last_activity_time := t0;
                Views.interaction := i |}).
  destruct (stream_loop_prefix pre st Hpre)
    as (ys1 & st1 & Hloop & Hlast & Hfwd & Hend).
  rewrite Hloop. simpl in Hlast.
  destruct (stream_loop_head s post fin st1) as (more & st' & e & ->).
  rewrite keep_alive_fst, Hlast. fold gap.
  set (pings := if Qltb 15 gap then _ else _).
  assert (Hpings :
    ((15 < gap)%Q -> pings = [Views.KeepAlive (int_of (Views.received_at s))]) /\
    ((gap <= 10)%Q -> pings = [])).
  { subst pings. split.
    - intros Hgap%Qltb_true. by rewrite Hgap.
    - intros Hgap. assert (Hle : (gap <= 15)%Q).
      { eapply Qle_trans; [exact Hgap|]. by compute. }
      apply Qltb_false in Hle. by rewrite Hle. }
  set (tail := match e with
               | Some e0 => _
               | None => _
               end).
  destruct tail as [reported st2] eqn:Htail. simpl.
  unfold previous_piece. destruct (last pre) as [p|] eqn:Hp.
  - destruct Hend as [b ->].
    exists (Views.Init (Views.id i) :: b), pings,
      (more ++ reported ++
         (if Views.error_occurred (Views.capture st2) then [] else [Views.End])).
    split; [|split; [|exact Hpings]].
    + simpl. f_equal. rewrite <- !(assoc_L (++)). simpl. done.
    + simpl. rewrite filter_cons_False by done. exact Hfwd.
  - subst ys1.
    exists [], pings,
      (more ++ reported ++
         (if Views.error_occurred (Views.capture st2) then [] else [Views.End])).
    split; [|split; [|exact Hpings]].
    + simpl. f_equal. rewrite <- !(assoc_L (++)). simpl. done.
    + apply last_None in Hp as ->. done.
Qed.

(** A session whose gaps all stay within 15 seconds has no keep-alive
    line at all. *)
Lemma stream_loop_quiet (chunks : list Views.step) (fin : Views.stream_end)
    (st : Views.locals) :
  (forall pre s post, chunks = pre ++ s :: post ->
     (Views.received_at s
        - last_activity_after (Views.last_activity_time st) pre <= 15)%Q) ->
  Forall (fun y => Views.is_keep_alive y = false) (stream_loop chunks fin st).1.1.
Proof.
  revert st. induction chunks as [|s rest IH]; intros st Hq; simpl.
  - destruct fin; constructor.
  - pose proof (Hq [] s rest eq_refl) as H0. simpl in H0.
    unfold last_activity_after in H0. simpl in H0.
    apply Qltb_false in H0. unfold Views.keep_alive. rewrite H0.
    destruct (inspected _ _) as [st2 leave] eqn:Hins.
    apply inspected_effect in Hins as (_ & Hlast & _).
    destruct leave; simpl; [by repeat constructor|].
    specialize (IH st2).
    destruct (stream_loop rest fin st2) as [[more st3] e]. simpl in *.
    constructor; [done|]. apply IH.
    intros pre s' post ->. rewrite Hlast. simpl.
    rewrite <- (last_activity_after_cons (Views.last_activity_time st)).
    by apply (Hq (s :: pre) s' post).
Qed.
End proxy_facts.

Lemma keep_alive_fills_long_gaps_witness :
  exists before pings after,
    Views.yielded
      (Views.rag_service_sse_proxy_generator loads_token str_blank
         "http://rag" "q" fresh_interaction slow_session)
    = before ++ Views.Forwarded (token_chunk "Hel")
             :: pings ++ Views.Forwarded (token_chunk "lo") :: after /\
    pings = [Views.KeepAlive 117].
Proof.
  destruct (keep_alive_fills_long_gaps loads_token str_blank "http://rag" "q"
              fresh_interaction 100 false (Ok "")
              [at_time 101 (token_chunk "Hel")] [at_time 118 end_chunk]
              (at_time 117 (token_chunk "lo")) Views.Exhausted)
    as (before & pings & after & Hy & _ & Hlong & _).
  - repeat constructor.
  - exists before, pings, after. split; [exact Hy|].
    apply Hlong. reflexivity.
Defined.

(* ===================================================================== *)
(** * Tokenization *)
(* ===================================================================== *)

Lemma re_split_go_ext (sep1 sep2 : ascii -> bool) (in_run : bool) (s : string) :
  all_chars (fun c => bool_decide (sep1 c = sep2 c)) s = true ->
  re_split_go sep1 in_run s = re_split_go sep2 in_run s.
Proof.
  revert in_run. induction s as [|c s IH]; intros in_run; simpl; [done|].
  intros [Hc Hs]%andb_true_iff. apply bool_decide_eq_true in Hc.
  rewrite <- Hc. destruct (sep1 c); [destruct in_run|]; by rewrite !IH.
Qed.

Lemma lower_char_underscore (c : ascii) :
  (code (lower_char c) =? 95)%nat = (code c =? 95)%nat.
Proof.
  destruct c as [[] [] [] [] [] [] [] []]; reflexivity.
Qed.

(** X3. On an ASCII text without an underscore, [simple_tokenizer] is
    the split on runs of non-alphanumeric characters that its docstring
    describes. *)
Lemma simple_tokenizer_alnum (text : string) :
  isascii text = true ->
  has_underscore text = false ->
  simple_tokenizer text = tokenize_alnum text.
Proof.
  unfold has_underscore, simple_tokenizer, tokenize_alnum, re_split_nonword,
    re_split.
  intros _ Hu%negb_false_iff. f_equal. apply re_split_go_ext.
  induction text as [|c text IH]; simpl in *; [done|].
  apply andb_true_iff in Hu as [Hc Hu]. rewrite IH by done.
  rewrite andb_true_r. apply bool_decide_eq_true.
  unfold is_word. rewrite lower_char_underscore.
  apply negb_true_iff in Hc. by rewrite Hc, orb_false_r.
Qed.

Lemma sparse_search_empty_query (bot : RAGBot) (query : string) :
  simple_tokenizer query = [] -> sparse_search bot query = Ok [].
Proof.
  intros Hq. unfold sparse_search. rewrite Hq.
  destruct (bm25_index bot), (all_documents bot); done.
Qed.

(** X6. A query that tokenizes to nothing never reaches the lexical
    index: the sparse search returns no scores, and
    [retrieve_documents] returns what it would return with any other
    index, or none. *)
Lemma empty_query_skips_sparse (bot : RAGBot) (query : string) :
  simple_tokenizer query = [] ->
  sparse_search bot query = Ok [] /\
  forall get_scores,
    retrieve_documents
      {| llm_loaded := llm_loaded bot; vectorstore := vectorstore bot;
         bm25_index := get_scores; all_documents := all_documents bot;
         reranker := reranker bot;
         conversation_history := conversation_history bot;
         max_history_length := max_history_length bot |} query
    = retrieve_documents bot query.
Proof.
  intros Hq. split; [by apply sparse_search_empty_query|].
  intros get_scores. unfold retrieve_documents, retrieve_documents_try. simpl.
  destruct (vectorstore bot) as [search|]; [|done].
  destruct (search query over_retrieve_k) as [dense|]; simpl; [|done].
  by rewrite !sparse_search_empty_query.
Qed.

(** C6. On ["a_b"] the tokenizer returns the single token ["a_b"]:
    the class [\W] does not contain the underscore, while splitting on
    non-alphanumeric characters gives ["a"] and ["b"]. *)
Theorem tokenizer_keeps_underscore :
  simple_tokenizer "a_b" = ["a_b"] /\ tokenize_alnum "a_b" = ["a"; "b"].
Proof. split; reflexivity. Qed.

(* ===================================================================== *)
(** * Retrieval: degradation *)
(* ===================================================================== *)

Lemma score_at_nonpositive (sparse_scores : list Q) (i : nat) :
  Forall (fun x => (x <= 0)%Q) sparse_scores ->
  Qltb 0 (score_at sparse_scores i) = false.
Proof.
  intros Hall. apply Qltb_false. unfold score_at.
  destruct (sparse_scores !! i) as [x|] eqn:Hx; simpl.
  - by apply (Forall_lookup_1 _ _ _ _ Hall Hx).
  - apply Qle_refl.
Qed.

Lemma rrf_sparse_nonpositive (sparse_scores : list Q) (n : nat)
    (rrf : list (nat * Q)) :
  Forall (fun x => (x <= 0)%Q) sparse_scores ->
  rrf_sparse sparse_scores n rrf = rrf.
Proof.
  intros Hall. unfold rrf_sparse. destruct (decide _); [|done].
  induction (enumerate _) as [|item items IH]; simpl; [done|].
  by rewrite score_at_nonpositive.
Qed.

Lemma retrieve_documents_returns (bot : RAGBot) (query : string) :
  exists docs, retrieve_documents bot query = Ok docs.
Proof.
  unfold retrieve_documents.
  destruct (retrieve_documents_try bot query); simpl; eauto.
Qed.

(** C3 as worded fails: without a vector store nothing is retrieved,
    although sparse-only fusion would find the document. *)
Lemma missing_store_is_not_sparse_only :
  ~ (forall bot query,
       vectorstore bot = None ->
       retrieve_documents bot query
       = retrieve_documents (with_empty_dense bot) query).
Proof.
  intros H. specialize (H sparse_only_bot "fever" eq_refl).
  vm_compute in H. discriminate H.
Qed.

(** C3, amended.  [retrieve_documents] never raises.  Without a vector
    store it returns the empty list at once.  When the store is there
    and dense search finds nothing, the fused scores are the sparse
    contributions alone, and if the sparse scores have no positive
    entry either the result is the empty list. *)
Theorem retrieval_degrades_without_raising (bot : RAGBot) (query : string) :
  (exists docs, retrieve_documents bot query = Ok docs) /\
  (vectorstore bot = None -> retrieve_documents bot query = Ok []) /\
  (forall search sparse_scores,
     vectorstore bot = Some search ->
     search query over_retrieve_k = Ok [] ->
     sparse_search bot query = Ok sparse_scores ->
     let sparse_only :=
       rrf_sparse sparse_scores (length (all_documents bot)) [] in
     rrf_scores [] (all_documents bot) sparse_scores = sparse_only /\
     retrieve_documents bot query =
       match docs_at (all_documents bot)
               (top_indices_for_reranking sparse_only) with
       | Ok docs => Ok (rerank_documents bot query docs)
       | Raise _ => Ok []
       end /\
     (Forall (fun x => (x <= 0)%Q) sparse_scores ->
      retrieve_documents bot query = Ok [])).
Proof.
  split; [apply retrieve_documents_returns|].
  split.
  { intros Hvs. unfold retrieve_documents, retrieve_documents_try.
    by rewrite Hvs. }
  intros search sparse_scores Hvs Hdense Hsparse sparse_only.
  assert (Hrun : retrieve_documents bot query =
            match docs_at (all_documents bot)
                    (top_indices_for_reranking sparse_only) with
            | Ok docs => Ok (rerank_documents bot query docs)
            | Raise _ => Ok []
            end).
  { unfold retrieve_documents, retrieve_documents_try.
    rewrite Hvs, Hdense. simpl. rewrite Hsparse. simpl.
    change (rrf_scores [] (all_documents bot) sparse_scores) with sparse_only.
    unfold sparse_mismatch.
    destruct (decide (length sparse_scores = length (all_documents bot)))
      as [Hlen|Hlen]; simpl; [by destruct (docs_at _ _)|].
    destruct (decide (1 < length sparse_scores)); simpl;
      [|by destruct (docs_at _ _)].
    subst sparse_only. unfold rrf_sparse. by rewrite decide_False. }
  split; [done|]. split; [exact Hrun|].
  intros Hall. rewrite Hrun. subst sparse_only.
  by rewrite rrf_sparse_nonpositive.
Qed.

Lemma retrieval_degrades_without_raising_witness :
  retrieve_documents sparse_only_bot "fever" = Ok [] /\
  retrieve_documents (with_empty_dense sparse_only_bot) "fever"
  = Ok [fever_doc].
Proof.
  split.
  - apply (proj1 (proj2 (retrieval_degrades_without_raising
                           sparse_only_bot "fever"))).
    reflexivity.
  - destruct (proj2 (proj2 (retrieval_degrades_without_raising
                              (with_empty_dense sparse_only_bot) "fever"))
                (fun _ _ => Ok []) [1%Q] eq_refl eq_refl eq_refl)
      as (_ & Hrun & _).
    etrans; [exact Hrun|]. vm_compute. reflexivity.
Defined.

(* ===================================================================== *)
(** * Rank fusion *)
(* ===================================================================== *)

Section dict_facts.
Context {K V : Type} `{EqDecision K}.
Implicit Types (d : list (K * V)) (k : K) (v : V).

Lemma dict_get_set k k' v d :
  dict_get k (dict_set k' v d) = if decide (k = k') then Some v else dict_get k d.
Proof.
  induction d as [|[k0 v0] d IH]; simpl.
  - by destruct (decide (k = k')).
  - destruct (decide (k' = k0)) as [->|Hne]; simpl.
    + destruct (decide (k = k0)); done.
    + destruct (decide (k = k0)) as [->|]; [|done].
      destruct (decide (k0 = k')); congruence.
Qed.

Lemma dict_get_None k d : dict_get k d = None <-> k ∉ dict_keys d.
Proof.
  unfold dict_keys. induction d as [|[k0 v0] d IH]; simpl.
  - split; [intros _; apply not_elem_of_nil|done].
  - rewrite not_elem_of_cons, <- IH.
    destruct (decide (k = k0)); intuition congruence.
Qed.

Lemma dict_get_Some k v d :
  NoDup (dict_keys d) -> dict_get k d = Some v <-> (k, v) ∈ d.
Proof.
  unfold dict_keys. induction d as [|[k0 v0] d IH]; simpl.
  - intros _. split; [done|]. by intros ?%elem_of_nil.
  - intros [Hk0 Hd]%NoDup_cons. rewrite elem_of_cons.
    destruct (decide (k = k0)) as [->|Hne].
    + split; [intros [= ->]; by left|].
      intros [[= ->]|Hin]; [done|].
      destruct Hk0. apply list_elem_of_fmap. by exists (k0, v).
    + rewrite IH by done. intuition congruence.
Qed.

Lemma dict_set_fresh k v d :
  k ∉ dict_keys d -> dict_set k v d = d ++ [(k, v)].
Proof.
  unfold dict_keys. induction d as [|[k0 v0] d IH]; simpl; [done|].
  intros [Hne Hk]%not_elem_of_cons.
  destruct (decide (k = k0)); [done|]. by rewrite IH.
Qed.

Lemma dict_keys_cons k v d : dict_keys ((k, v) :: d) = k :: dict_keys d.
Proof. reflexivity. Qed.

Lemma dict_keys_set k v d :
  dict_keys (dict_set k v d) =
    if decide (k ∈ dict_keys d) then dict_keys d else dict_keys d ++ [k].
Proof.
  induction d as [|[k0 v0] d IH].
  - simpl. destruct (decide (k ∈ [])) as [?%elem_of_nil|]; done.
  - simpl dict_set. rewrite dict_keys_cons.
    destruct (decide (k = k0)) as [->|Hne]; rewrite dict_keys_cons.
    + rewrite decide_True by left. done.
    + rewrite IH. destruct (decide (k ∈ dict_keys d)).
      * rewrite decide_True by (by right). done.
      * rewrite decide_False; [done|]. rewrite elem_of_cons. intuition.
Qed.

Lemma dict_keys_set_NoDup k v d :
  NoDup (dict_keys d) -> NoDup (dict_keys (dict_set k v d)).
Proof.
  intros Hd. rewrite dict_keys_set.
  destruct (decide (k ∈ dict_keys d)); [done|].
  apply NoDup_app. split; [done|]. split; [|apply NoDup_singleton].
  intros x Hx ->%list_elem_of_singleton. done.
Qed.

Lemma dict_of_NoDup {A} (key : A -> K) (val : A -> V) (l : list A) :
  NoDup (key <$> l) ->
  dict_of key val l = (fun x => (key x, val x)) <$> l.
Proof.
  unfold dict_of.
  assert (Hgen : forall acc : list (K * V),
    NoDup (dict_keys acc ++ (key <$> l)) ->
    fold_left (fun d x => dict_set (key x) (val x) d) l acc
    = acc ++ ((fun x => (key x, val x)) <$> l)).
  { induction l as [|x l IH]; intros acc Hnd; simpl.
    - by rewrite app_nil_r.
    - rewrite dict_set_fresh.
      + rewrite IH.
        * by rewrite <- (assoc_L (++)).
        * unfold dict_keys in *. rewrite fmap_app. simpl.
          by rewrite <- (assoc_L (++)).
      + apply NoDup_app in Hnd as (_ & Hdisj & _). intros Hin.
        apply (Hdisj _ Hin). simpl. left. }
  intros Hnd. by rewrite Hgen.
Qed.
End dict_facts.

Lemma enumerate_lookup {A} (l : list A) (i : nat) :
  enumerate l !! i = (fun x => (i, x)) <$> l !! i.
Proof.
  unfold enumerate. rewrite lookup_zip_with.
  destruct (l !! i) as [x|] eqn:Hx; simpl.
  - rewrite lookup_seq_lt by (by eapply lookup_lt_Some). done.
  - by destruct (seq 0 (length l) !! i).
Qed.

Lemma elem_of_enumerate {A} (l : list A) (i : nat) (x : A) :
  (i, x) ∈ enumerate l <-> l !! i = Some x.
Proof.
  rewrite list_elem_of_lookup. split.
  - intros [j Hj]. rewrite enumerate_lookup in Hj.
    destruct (l !! j) eqn:Hl; simplify_eq/=. done.
  - intros Hx. exists i. by rewrite enumerate_lookup, Hx.
Qed.

Lemma enumerate_snd {A} (l : list A) : (enumerate l).*2 = l.
Proof. unfold enumerate. apply snd_zip. by rewrite length_seq. Qed.

Lemma enumerate_fst {A} (l : list A) : (enumerate l).*1 = seq 0 (length l).
Proof. unfold enumerate. apply fst_zip. by rewrite length_seq. Qed.

Lemma fold_left_omap {A B C} (f : B -> option C) (g : A -> C -> A)
    (l : list B) (a : A) :
  fold_left (fun a x => match f x with Some y => g a y | None => a end) l a
  = fold_left g (omap f l) a.
Proof.
  revert a. induction l as [|x l IH]; intros a; simpl; [done|].
  destruct (f x); simpl; apply IH.
Qed.

Lemma apply_ops_notin (ops : list (nat * nat)) (rrf : list (nat * Q)) (d : nat) :
  d ∉ ops.*1 -> dict_get d (apply_ops ops rrf) = dict_get d rrf.
Proof.
  unfold apply_ops. revert rrf.
  induction ops as [|[i r] ops IH]; intros rrf; simpl; [done|].
  intros [Hne Hd]%not_elem_of_cons. rewrite IH by done.
  unfold rrf_add. rewrite dict_get_set. by rewrite decide_False.
Qed.

Lemma apply_ops_in (ops : list (nat * nat)) (rrf : list (nat * Q))
    (d r : nat) :
  NoDup ops.*1 -> (d, r) ∈ ops ->
  dict_get d (apply_ops ops rrf)
  = Some (default 0%Q (dict_get d rrf) + rrf_term r)%Q.
Proof.
  unfold apply_ops. revert rrf.
  induction ops as [|[i r'] ops IH]; intros rrf; simpl.
  - by intros _ ?%elem_of_nil.
  - intros [Hi Hnd]%NoDup_cons [[= -> ->]|Hin]%elem_of_cons.
    + fold (apply_ops ops (rrf_add i r' rrf)).
      rewrite apply_ops_notin by done.
      unfold rrf_add. rewrite dict_get_set. by rewrite decide_True.
    + rewrite IH by done. unfold rrf_add. rewrite dict_get_set.
      rewrite decide_False; [done|]. intros ->. apply Hi.
      apply list_elem_of_fmap. by exists (i, r).
Qed.

Lemma apply_ops_keys_NoDup (ops : list (nat * nat)) (rrf : list (nat * Q)) :
  NoDup (dict_keys rrf) -> NoDup (dict_keys (apply_ops ops rrf)).
Proof.
  unfold apply_ops. revert rrf.
  induction ops as [|[i r] ops IH]; intros rrf Hnd; simpl; [done|].
  apply IH. by apply dict_keys_set_NoDup.
Qed.

Lemma rank_of_Some `{EqDecision A} (x : A) (l : list A) (r : nat) :
  rank_of x l = Some r -> l !! r = Some x.
Proof.
  unfold rank_of. destruct (list_find _ l) as [[i y]|] eqn:Hf; [|done].
  apply list_find_Some in Hf as (Hl & -> & _). by intros [= <-].
Qed.

Lemma rank_of_None `{EqDecision A} (x : A) (l : list A) :
  rank_of x l = None -> x ∉ l.
Proof.
  unfold rank_of. destruct (list_find _ l) as [[i y]|] eqn:Hf; [done|].
  intros _ Hin. apply list_find_None in Hf.
  by apply (proj1 (Forall_forall _ _) Hf x Hin).
Qed.

Lemma NoDup_omap_inj {A B} (f : A -> option B) (l : list A) :
  NoDup l ->
  (forall x y z, x ∈ l -> y ∈ l -> f x = Some z -> f y = Some z -> x = y) ->
  NoDup (omap f l).
Proof.
  induction 1 as [|x l Hx Hl IH]; intros Hinj; simpl; [constructor|].
  assert (IH' : NoDup (omap f l)).
  { apply IH. intros a b z Ha Hb. apply Hinj; by right. }
  destruct (f x) as [z|] eqn:Hz; [|done].
  constructor; [|done].
  intros (y & Hy & Hfy)%list_elem_of_omap.
  apply Hx. rewrite (Hinj x y z); [done|by left|by right|done|done].
Qed.

Lemma elem_of_unique_key {K V} `{EqDecision K} (d : list (K * V)) (x y : K * V) :
  NoDup (dict_keys d) -> x ∈ d -> y ∈ d -> x.1 = y.1 -> x = y.
Proof.
  intros Hnd Hx Hy Hk. destruct x as [k v], y as [k' v']. simpl in Hk. subst k'.
  apply (dict_get_Some _ _ _ Hnd) in Hx, Hy. congruence.
Qed.

Lemma rrf_dense_ops (dense_results : list (Document * Q))
    (all_documents : list Document) (rrf : list (nat * Q)) :
  rrf_dense (dense_ranks dense_results) (doc_content_to_index all_documents) rrf
  = apply_ops (dense_ops dense_results all_documents) rrf.
Proof.
  unfold rrf_dense, dense_ops, apply_ops. revert rrf.
  induction (dense_ranks dense_results) as [|item items IH]; intros rrf;
    simpl; [done|].
  destruct (dict_get item.1 _); simpl; apply IH.
Qed.

Lemma rrf_sparse_ops (sparse_scores : list Q) (rrf : list (nat * Q)) :
  rrf_sparse sparse_scores (length sparse_scores) rrf
  = apply_ops (sparse_ops sparse_scores) rrf.
Proof.
  unfold rrf_sparse, sparse_ops, apply_ops. rewrite decide_True by done.
  rewrite (slice_to_nonneg num_sparse_for_fusion) by (by compute).
  change (Z.to_nat num_sparse_for_fusion) with 40. revert rrf.
  induction (enumerate _) as [|item items IH]; intros rrf; simpl; [done|].
  destruct (Qltb 0 _); simpl; apply IH.
Qed.

Section fusion.
Variable dense_results : list (Document * Q).
Variable all_documents : list Document.
Variable sparse_scores : list Q.

Hypothesis corpus_distinct : NoDup (page_content <$> all_documents).
Hypothesis dense_distinct : NoDup ((fun x => page_content x.1) <$> dense_results).

Lemma dense_ranks_distinct :
  dense_ranks dense_results =
    (fun x : nat * (Document * Q) => (page_content x.2.1, x.1))
      <$> enumerate dense_results.
Proof.
  unfold dense_ranks. apply dict_of_NoDup.
  rewrite <- (enumerate_snd dense_results) in dense_distinct.
  rewrite <- list_fmap_compose in dense_distinct. exact dense_distinct.
Qed.

Lemma doc_content_to_index_distinct :
  doc_content_to_index all_documents =
    (fun x : nat * Document => (page_content x.2, x.1))
      <$> enumerate all_documents.
Proof.
  unfold doc_content_to_index. apply dict_of_NoDup.
  rewrite <- (enumerate_snd all_documents) in corpus_distinct.
  rewrite <- list_fmap_compose in corpus_distinct. exact corpus_distinct.
Qed.

Lemma dense_ranks_keys :
  dict_keys (dense_ranks dense_results) =
    (fun x => page_content x.1) <$> dense_results.
Proof.
  rewrite dense_ranks_distinct. unfold dict_keys.
  rewrite <- list_fmap_compose.
  rewrite <- (enumerate_snd dense_results) at 2.
  by rewrite <- list_fmap_compose.
Qed.

Lemma doc_content_to_index_keys :
  dict_keys (doc_content_to_index all_documents) = page_content <$> all_documents.
Proof.
  rewrite doc_content_to_index_distinct. unfold dict_keys.
  rewrite <- list_fmap_compose.
  rewrite <- (enumerate_snd all_documents) at 2.
  by rewrite <- list_fmap_compose.
Qed.

Lemma elem_of_dense_ranks (c : string) (r : nat) :
  (c, r) ∈ dense_ranks dense_results <->
  exists doc sc, dense_results !! r = Some (doc, sc) /\ page_content doc = c.
Proof.
  rewrite dense_ranks_distinct, list_elem_of_fmap. split.
  - intros ([i [doc sc]] & [= -> ->] & Hin%elem_of_enumerate). eauto.
  - intros (doc & sc & Hr & <-). exists (r, (doc, sc)).
    split; [done|]. by apply elem_of_enumerate.
Qed.

Lemma doc_content_to_index_Some (c : string) (i : nat) :
  dict_get c (doc_content_to_index all_documents) = Some i <->
  exists doc, all_documents !! i = Some doc /\ page_content doc = c.
Proof.
  rewrite dict_get_Some
    by (rewrite doc_content_to_index_keys; exact corpus_distinct).
  rewrite doc_content_to_index_distinct, list_elem_of_fmap. split.
  - intros ([j doc] & [= -> ->] & Hin%elem_of_enumerate). eauto.
  - intros (doc & Hi & <-). exists (i, doc).
    split; [done|]. by apply elem_of_enumerate.
Qed.

Lemma elem_of_dense_ops (d r : nat) :
  (d, r) ∈ dense_ops dense_results all_documents <->
  exists ddoc sc doc,
    dense_results !! r = Some (ddoc, sc) /\ all_documents !! d = Some doc /\
    page_content ddoc = page_content doc.
Proof.
  unfold dense_ops. rewrite list_elem_of_omap. split.
  - intros ([c r'] & (ddoc & sc & Hr & <-)%elem_of_dense_ranks & Hf).
    simpl in Hf.
    destruct (dict_get _ _) as [idx|] eqn:Hidx; simplify_eq/=.
    apply doc_content_to_index_Some in Hidx as (doc & Hd & Hc). eauto 10.
  - intros (ddoc & sc & doc & Hr & Hd & Hc).
    exists (page_content ddoc, r). split.
    + apply elem_of_dense_ranks. eauto.
    + simpl. rewrite (proj2 (doc_content_to_index_Some _ d)); [done|]. eauto.
Qed.

Lemma dense_ops_NoDup : NoDup (dense_ops dense_results all_documents).*1.
Proof.
  unfold dense_ops. rewrite list_fmap_omap.
  apply NoDup_omap_inj.
  - eapply NoDup_fmap_1 with (f := fst). fold (dict_keys (dense_ranks dense_results)).
    rewrite dense_ranks_keys. exact dense_distinct.
  - intros x y z Hx Hy Hfx Hfy.
    destruct (dict_get x.1 _) as [ix|] eqn:Hix; simplify_eq/=.
    destruct (dict_get y.1 _) as [iy|] eqn:Hiy; simplify_eq/=.
    apply doc_content_to_index_Some in Hix as (doc & Hd & Hc).
    apply doc_content_to_index_Some in Hiy as (doc' & Hd' & Hc').
    simplify_eq. apply (elem_of_unique_key (dense_ranks dense_results)); try done.
    + rewrite dense_ranks_keys. exact dense_distinct.
    + congruence.
Qed.
End fusion.

Lemma descending_trans {A} (key : A -> Q) : Transitive (descending key).
Proof. intros a b c Hab Hbc. unfold descending in *. by eapply Qle_trans. Qed.

Lemma sorted_desc_perm {A} (key : A -> Q) (l : list A) :
  sorted_desc key Qltb l ≡ₚ l.
Proof. apply foldr_insert_by_perm. Qed.

Lemma sorted_desc_sorted {A} (key : A -> Q) (l : list A) :
  StronglySorted (descending key) (sorted_desc key Qltb l).
Proof.
  apply foldr_insert_by_sorted.
  - apply descending_trans.
  - intros y x Hlt%Qltb_true. by apply Qlt_le_weak.
  - intros y x Hge%Qltb_false. exact Hge.
Qed.

Lemma sparse_ranked_indices_perm (sparse_scores : list Q) :
  sparse_ranked_indices sparse_scores ≡ₚ seq 0 (length sparse_scores).
Proof. apply sorted_desc_perm. Qed.

Lemma sparse_ranked_indices_NoDup (sparse_scores : list Q) :
  NoDup (sparse_ranked_indices sparse_scores).
Proof. rewrite sparse_ranked_indices_perm. apply NoDup_seq. Qed.

Lemma elem_of_sparse_ops (sparse_scores : list Q) (d r : nat) :
  (d, r) ∈ sparse_ops sparse_scores <->
  take 40 (sparse_ranked_indices sparse_scores) !! r = Some d /\
  Qltb 0 (score_at sparse_scores d) = true.
Proof.
  unfold sparse_ops. rewrite list_elem_of_omap. split.
  - intros ([r' d'] & Hin%elem_of_enumerate & Hf). simpl in Hf.
    destruct (Qltb 0 _) eqn:Hpos; simplify_eq/=. done.
  - intros [Hr Hpos]. exists (r, d). split; [by apply elem_of_enumerate|].
    simpl. by rewrite Hpos.
Qed.

Lemma sparse_ops_NoDup (sparse_scores : list Q) :
  NoDup (sparse_ops sparse_scores).*1.
Proof.
  unfold sparse_ops. rewrite list_fmap_omap.
  set (top := take 40 (sparse_ranked_indices sparse_scores)).
  assert (Htop : NoDup top).
  { subst top. eapply sublist_NoDup; [|apply sublist_take].
    apply sparse_ranked_indices_NoDup. }
  apply NoDup_omap_inj.
  - eapply NoDup_fmap_1 with (f := fst). rewrite enumerate_fst. apply NoDup_seq.
  - intros [i a] [j b] z Hx%elem_of_enumerate Hy%elem_of_enumerate Hfx Hfy.
    simpl in *.
    destruct (Qltb 0 (score_at sparse_scores a)); simplify_eq/=.
    destruct (Qltb 0 (score_at sparse_scores b)); simplify_eq/=.
    f_equal. by eapply NoDup_lookup.
Qed.

Lemma take_nonneg_20 {A} (l : list A) : slice_to over_retrieve_k l = take 20 l.
Proof. by apply (slice_to_nonneg 20). Qed.

Lemma dense_side (dense_results : list (Document * Q))
    (all_documents : list Document) (rrf0 : list (nat * Q)) (d : nat) :
  NoDup (page_content <$> all_documents) ->
  NoDup ((fun x => page_content x.1) <$> dense_results) ->
  dict_get d (apply_ops (dense_ops dense_results all_documents) rrf0) =
    match dense_rank dense_results all_documents d with
    | Some r => Some (default 0%Q (dict_get d rrf0) + rrf_term r)%Q
    | None => dict_get d rrf0
    end.
Proof.
  intros Hdocs Hdense. unfold dense_rank.
  destruct (all_documents !! d) as [doc|] eqn:Hd; simpl.
  - destruct (rank_of _ _) as [r|] eqn:Hr.
    + apply rank_of_Some in Hr. rewrite list_lookup_fmap in Hr.
      destruct (dense_results !! r) as [[ddoc sc]|] eqn:Hdr; simplify_eq/=.
      apply apply_ops_in; [by apply dense_ops_NoDup|].
      apply elem_of_dense_ops; eauto 10.
    + apply rank_of_None in Hr. apply apply_ops_notin.
      intros ([d' r] & -> & Hin)%list_elem_of_fmap.
      apply elem_of_dense_ops in Hin as (ddoc & sc & doc' & Hdr & Hd' & Hc);
        [|done|done].
      simpl in *. simplify_eq. apply Hr. rewrite <- Hc.
      apply list_elem_of_fmap. exists (ddoc, sc). split; [done|].
      by eapply list_elem_of_lookup_2.
  - apply apply_ops_notin.
    intros ([d' r] & -> & Hin)%list_elem_of_fmap.
    apply elem_of_dense_ops in Hin as (ddoc & sc & doc' & Hdr & Hd' & Hc);
      [|done|done].
    simpl in *. congruence.
Qed.

(** *** The sparse ranking is the stable one *)

Lemma ahead_spec (sparse_scores : list Q) (j d : nat) :
  ahead sparse_scores j d = true <->
  (score_at sparse_scores d < score_at sparse_scores j)%Q \/
  ((score_at sparse_scores j == score_at sparse_scores d)%Q /\ j < d).
Proof.
  unfold ahead. rewrite orb_true_iff, andb_true_iff, Qltb_true, Qeq_bool_iff.
  by rewrite Nat.ltb_lt.
Qed.

Lemma ahead_le (sparse_scores : list Q) (j d : nat) :
  ahead sparse_scores j d = true ->
  (score_at sparse_scores d <= score_at sparse_scores j)%Q.
Proof.
  intros [Hlt | [Heq _]]%ahead_spec; [by apply Qlt_le_weak|].
  rewrite Heq. apply Qle_refl.
Qed.

Lemma ahead_asym (sparse_scores : list Q) (j d : nat) :
  ahead sparse_scores j d = true -> ahead sparse_scores d j = false.
Proof.
  intros Hjd. apply not_true_is_false. intros Hdj.
  apply ahead_spec in Hjd, Hdj.
  destruct Hjd as [H1 | [H1 H1']], Hdj as [H2 | [H2 H2']].
  - by apply (Qlt_irrefl (score_at sparse_scores d)), (Qlt_trans _ _ _ H1).
  - rewrite H2 in H1. by apply Qlt_irrefl in H1.
  - rewrite H1 in H2. by apply Qlt_irrefl in H2.
  - lia.
Qed.

Lemma ahead_irrefl (sparse_scores : list Q) (d : nat) :
  ahead sparse_scores d d = false.
Proof.
  apply not_true_is_false. intros [H | [_ H]]%ahead_spec; [|lia].
  by apply Qlt_irrefl in H.
Qed.

Lemma insert_by_stable (sparse_scores : list Q) (x : nat) (l : list nat) :
  Forall (fun y => x < y) l ->
  StronglySorted (fun a b => ahead sparse_scores a b = true) l ->
  StronglySorted (fun a b => ahead sparse_scores a b = true)
    (insert_by (fun y x => Qltb (score_at sparse_scores x)
                                (score_at sparse_scores y)) x l).
Proof.
  intros Hx Hs. induction Hs as [|y l Hs IH Hall]; simpl.
  - repeat constructor.
  - apply Forall_cons in Hx as [Hxy Hx].
    destruct (Qltb _ _) eqn:Hp.
    + constructor; [by apply IH|].
      rewrite insert_by_perm. constructor; [|done].
      unfold ahead. by rewrite Hp.
    + apply Qltb_false in Hp. constructor; [by constructor|].
      assert (Hle : forall z, (score_at sparse_scores z
                               <= score_at sparse_scores x)%Q ->
                              x < z -> ahead sparse_scores x z = true).
      { intros z Hz Hxz. apply ahead_spec.
        apply Qle_lt_or_eq in Hz as [Hz|Hz]; [by left|].
        right. split; [by symmetry|done]. }
      constructor; [by apply Hle|].
      apply Forall_forall. intros z Hz. apply Hle.
      * apply Qle_trans with (score_at sparse_scores y); [|done].
        by apply ahead_le, (proj1 (Forall_forall _ _) Hall).
      * by apply (proj1 (Forall_forall _ _) Hx).
Qed.

Lemma sparse_ranked_indices_stable (sparse_scores : list Q) :
  StronglySorted (fun a b => ahead sparse_scores a b = true)
    (sparse_ranked_indices sparse_scores).
Proof.
  unfold sparse_ranked_indices, sorted_desc.
  generalize (length sparse_scores) as n. generalize 0 as start.
  intros start n. revert start.
  induction n as [|n IH]; intros start; simpl; [constructor|].
  apply insert_by_stable; [|apply IH].
  apply Forall_forall. intros y Hy.
  rewrite foldr_insert_by_perm in Hy. apply elem_of_seq in Hy. lia.
Qed.

Lemma rank_of_middle `{EqDecision A} (x : A) (pre post : list A) :
  x ∉ pre -> rank_of x (pre ++ x :: post) = Some (length pre).
Proof.
  intros Hx. unfold rank_of.
  assert (Hf : list_find (fun y => y = x) (pre ++ x :: post)
               = Some (length pre, x)); [|by rewrite Hf].
  apply list_find_Some. split; [by apply list_lookup_middle|].
  split; [done|]. intros j y Hj Hlt ->.
  rewrite lookup_app_l in Hj by done. apply Hx.
  by eapply list_elem_of_lookup_2.
Qed.

Lemma rank_of_notin `{EqDecision A} (x : A) (l : list A) :
  x ∉ l -> rank_of x l = None.
Proof.
  intros Hx. unfold rank_of.
  destruct (list_find _ l) as [[i y]|] eqn:Hf; [|done].
  apply list_find_Some in Hf as (Hl & -> & _).
  destruct Hx. by eapply list_elem_of_lookup_2.
Qed.

Lemma filter_all {A} (P : A -> Prop) `{forall x, Decision (P x)} (l : list A) :
  Forall P l -> filter P l = l.
Proof.
  induction 1 as [|x l Hx _ IH]; [done|].
  by rewrite filter_cons_True, IH.
Qed.

Lemma filter_none {A} (P : A -> Prop) `{forall x, Decision (P x)} (l : list A) :
  Forall (fun x => ~ P x) l -> filter P l = [].
Proof.
  induction 1 as [|x l Hx _ IH]; [done|].
  by rewrite filter_cons_False.
Qed.

(** The position of [d] in the code's ranking is the number of
    documents ahead of it. *)
Lemma sparse_ranked_position (sparse_scores : list Q) (d : nat) :
  d < length sparse_scores ->
  exists pre post,
    sparse_ranked_indices sparse_scores = pre ++ d :: post /\
    (d ∉ pre) /\ length pre = sparse_position sparse_scores d.
Proof.
  intros Hd.
  pose proof (sparse_ranked_indices_stable sparse_scores) as Hs.
  pose proof (sparse_ranked_indices_perm sparse_scores) as Hp.
  pose proof (sparse_ranked_indices_NoDup sparse_scores) as Hn.
  assert (Hin : d ∈ sparse_ranked_indices sparse_scores).
  { rewrite Hp. apply elem_of_seq. lia. }
  apply list_elem_of_split in Hin as (pre & post & Heq).
  exists pre, post. rewrite Heq in Hs, Hn, Hp. split; [done|].
  apply NoDup_app in Hn as (_ & Hn & _).
  split.
  { intros Hin. apply (Hn d Hin). left. }
  unfold sparse_position. rewrite <- Hp.
  rewrite filter_app, length_app.
  assert (Hpre : filter (fun j => ahead sparse_scores j d = true) pre = pre).
  { apply filter_all. apply Forall_forall. intros p Hpin.
    apply (StronglySorted_app_1_elem_of _ _ _ p d Hs Hpin). left. }
  assert (Hpost : filter (fun j => ahead sparse_scores j d = true) (d :: post)
                  = []).
  { apply StronglySorted_app_1_r in Hs.
    apply StronglySorted_inv in Hs as [_ Hall].
    rewrite filter_cons_False by (by rewrite ahead_irrefl).
    apply filter_none. eapply Forall_impl; [exact Hall|].
    intros q Hq. by rewrite (ahead_asym _ _ _ Hq). }
  rewrite Hpre, Hpost. simpl. lia.
Qed.

Lemma score_at_positive (sparse_scores : list Q) (d : nat) :
  Qltb 0 (score_at sparse_scores d) = true -> d < length sparse_scores.
Proof.
  unfold score_at. intros Hpos.
  destruct (sparse_scores !! d) as [x|] eqn:Hx; [by eapply lookup_lt_Some|].
  simpl in Hpos. by apply Qltb_true, Qlt_irrefl in Hpos.
Qed.

(** The rank in the list the code walks over is the rank as stated. *)
Lemma sparse_rank_listed (sparse_scores : list Q) (d : nat) :
  Qltb 0 (score_at sparse_scores d) = true ->
  rank_of d (take 40 (sparse_ranked_indices sparse_scores))
    = sparse_rank sparse_scores d.
Proof.
  intros Hpos. unfold sparse_rank. rewrite Hpos. simpl.
  destruct (sparse_ranked_position sparse_scores d)
    as (pre & post & -> & Hpre & <-); [by apply score_at_positive|].
  destruct (Nat.ltb_spec (length pre) 40) as [Hlt|Hge].
  - rewrite take_app, take_ge by lia.
    destruct (40 - length pre) as [|m] eqn:Hm; [lia|]. simpl.
    by apply rank_of_middle.
  - rewrite take_app_le by lia. apply rank_of_notin.
    intros Hin%elem_of_take. destruct Hin as (j & Hj & _).
    apply Hpre. by eapply list_elem_of_lookup_2.
Qed.

Lemma sparse_side (sparse_scores : list Q) (rrf0 : list (nat * Q)) (d : nat) :
  dict_get d (apply_ops (sparse_ops sparse_scores) rrf0) =
    match sparse_rank sparse_scores d with
    | Some r => Some (default 0%Q (dict_get d rrf0) + rrf_term r)%Q
    | None => dict_get d rrf0
    end.
Proof.
  destruct (Qltb 0 (score_at sparse_scores d)) eqn:Hpos.
  - rewrite <- (sparse_rank_listed _ _ Hpos).
    destruct (rank_of _ _) as [r|] eqn:Hr.
    + apply rank_of_Some in Hr.
      apply apply_ops_in; [apply sparse_ops_NoDup|].
      by apply elem_of_sparse_ops.
    + apply rank_of_None in Hr. apply apply_ops_notin.
      intros ([d' r] & -> & [Hin _]%elem_of_sparse_ops)%list_elem_of_fmap.
      simpl in *. apply Hr. by eapply list_elem_of_lookup_2.
  - unfold sparse_rank. rewrite Hpos. simpl. apply apply_ops_notin.
    intros ([d' r] & -> & [_ Hin]%elem_of_sparse_ops)%list_elem_of_fmap.
    simpl in Hpos. congruence.
Qed.

Lemma rrf_term_reciprocal (r : nat) : (rrf_term r == reciprocal_rank r)%Q.
Proof.
  unfold rrf_term, reciprocal_rank, k_rrf.
  rewrite Nat2Z.inj_add, inject_Z_plus. reflexivity.
Qed.

Lemma rrf_scores_ops (dense_results : list (Document * Q))
    (all_documents : list Document) (sparse_scores : list Q) :
  length sparse_scores = length all_documents \/ sparse_scores = [] ->
  rrf_scores dense_results all_documents sparse_scores =
    apply_ops (sparse_ops sparse_scores)
      (apply_ops (dense_ops dense_results all_documents) []).
Proof.
  unfold rrf_scores. rewrite rrf_dense_ops. intros [Hlen | ->].
  - by rewrite <- Hlen, rrf_sparse_ops.
  - unfold rrf_sparse. by destruct (decide _).
Qed.

Lemma expected_fused_in_corpus (dense_results : list (Document * Q))
    (all_documents : list Document) (sparse_scores : list Q) (d : nat) :
  length sparse_scores = length all_documents \/ sparse_scores = [] ->
  is_Some (expected_fused dense_results all_documents sparse_scores d) ->
  d < length all_documents.
Proof.
  intros Hlen. unfold expected_fused.
  destruct (dense_rank _ _ _) as [r|] eqn:Hdense.
  { intros _. unfold dense_rank in Hdense.
    destruct (all_documents !! d) as [doc|] eqn:Hd; [|done].
    by eapply lookup_lt_Some. }
  destruct (sparse_rank _ _) as [r|] eqn:Hsparse; [|by intros [? [=]]].
  intros _. unfold sparse_rank in Hsparse.
  destruct (Qltb 0 _) eqn:Hpos; [|done].
  apply score_at_positive in Hpos. destruct Hlen as [<- | ->]; [done|].
  simpl in Hpos. lia.
Qed.

(** C2, amended.  When the page contents are pairwise distinct in the
    corpus and in the dense results, and there is one sparse score per
    corpus document (or no sparse score at all), the fused score of
    document [d] is the sum of [1/(60 + r)] over the lists in which it
    has a rank [r]: its 0-based position in the dense results, and its
    0-based position in the sparse ranking (score descending, equal
    scores by corpus index) if its own sparse score is positive and the
    position is below 40; a document with no rank gets no score.  The
    candidates are the [min 20 n] scored documents of highest fused
    score, [n] being the number of scored documents, without
    repetition and in descending order of fused score. *)
Theorem rrf_fused_score (dense_results : list (Document * Q))
    (all_documents : list Document) (sparse_scores : list Q) (d : nat) :
  NoDup (page_content <$> all_documents) ->
  NoDup ((fun x => page_content x.1) <$> dense_results) ->
  length sparse_scores = length all_documents \/ sparse_scores = [] ->
  let rrf := rrf_scores dense_results all_documents sparse_scores in
  let top := top_indices_for_reranking rrf in
  let candidates := scored dense_results all_documents sparse_scores in
  same_score (dict_get d rrf)
    (expected_fused dense_results all_documents sparse_scores d) /\
  length top = Nat.min 20 (length candidates) /\
  NoDup top /\
  StronglySorted (descending (fused rrf)) top /\
  (forall a, a ∈ top -> a ∈ candidates) /\
  (forall a b, a ∈ top -> b ∈ candidates -> b ∉ top ->
     (fused rrf b <= fused rrf a)%Q).
Proof.
  intros Hdocs Hdense Hlen rrf top candidates.
  assert (Hscore : forall a,
            same_score (dict_get a rrf)
              (expected_fused dense_results all_documents sparse_scores a)).
  { intros a. subst rrf. rewrite rrf_scores_ops by done.
    rewrite sparse_side, dense_side by done. unfold expected_fused. simpl.
    destruct (dense_rank _ _ _) as [r|], (sparse_rank _ _) as [r'|]; simpl;
      try done; rewrite ?Qplus_0_l, ?rrf_term_reciprocal; reflexivity. }
  split; [apply Hscore|].
  assert (Hkeys : NoDup (dict_keys rrf)).
  { subst rrf. rewrite rrf_scores_ops by done.
    do 2 apply apply_ops_keys_NoDup. constructor. }
  assert (Hsome : forall a, a ∈ dict_keys rrf <-> is_Some (dict_get a rrf)).
  { intros a. rewrite <- not_eq_None_Some, dict_get_None.
    split; [by intros ? ?|]. apply dec_stable. }
  assert (Hcand : dict_keys rrf ≡ₚ candidates).
  { apply NoDup_Permutation; [done|apply NoDup_filter, NoDup_seq|].
    intros a. rewrite Hsome. subst candidates. unfold scored.
    rewrite list_elem_of_filter, elem_of_seq.
    specialize (Hscore a).
    destruct (dict_get a rrf) as [x|],
             (expected_fused dense_results all_documents sparse_scores a)
      as [y|] eqn:He; simpl in Hscore; try done.
    - split; [|by eauto]. intros _. split; [by eauto|].
      split; [lia|]. simpl.
      apply (expected_fused_in_corpus dense_results _ sparse_scores a Hlen).
      by rewrite He.
    - split; [by intros [? [=]]|]. by intros [[? [=]] _]. }
  set (sorted := sorted_desc (fused rrf) Qltb (dict_keys rrf)).
  assert (Htop : top = take 20 sorted) by apply take_nonneg_20.
  assert (Hperm : sorted ≡ₚ dict_keys rrf) by apply sorted_desc_perm.
  assert (Hsorted : StronglySorted (descending (fused rrf)) sorted)
    by apply sorted_desc_sorted.
  rewrite <- (take_drop 20 sorted), <- Htop in Hsorted.
  assert (Hin : forall a, a ∈ top -> a ∈ dict_keys rrf).
  { intros a Ha. rewrite <- Hperm. rewrite Htop in Ha.
    apply elem_of_take in Ha as (j & Hj & _).
    by eapply list_elem_of_lookup_2. }
  split; [rewrite Htop, length_take, <- Hcand, <- Hperm; lia|].
  split; [rewrite Htop; eapply sublist_NoDup; [|apply sublist_take];
          by rewrite Hperm|].
  split; [by eapply StronglySorted_app_1_l|].
  split; [intros a Ha; rewrite <- Hcand; by apply Hin|].
  intros a b Ha Hb Hnb. rewrite <- Hcand, <- Hperm in Hb.
  rewrite <- (take_drop 20 sorted), <- Htop in Hb.
  apply elem_of_app in Hb as [Hb|Hb]; [done|].
  by apply (StronglySorted_app_1_elem_of _ _ _ _ _ Hsorted).
Qed.

(** C2 as worded fails when two corpus documents share their
    text: the first one is in the dense results at rank 0 and gets no
    score, the dictionary that resolves contents keeps the last index. *)
Lemma rank_fusion_duplicate_text :
  ~ (forall dense_results all_documents sparse_scores d,
       length sparse_scores = length all_documents \/ sparse_scores = [] ->
       same_score
         (dict_get d (rrf_scores dense_results all_documents sparse_scores))
         (expected_fused dense_results all_documents sparse_scores d)).
Proof.
  intros H.
  specialize (H twin_dense twin_docs twin_sparse 0 (or_introl eq_refl)).
  vm_compute in H. exact H.
Qed.

Lemma rrf_fused_score_witness :
  same_score (dict_get 0 (rrf_scores two_dense two_docs two_sparse))
    (Some ((1 # 60) + (1 # 61))%Q) /\
  same_score (dict_get 1 (rrf_scores two_dense two_docs two_sparse))
    (Some ((1 # 61) + (1 # 60))%Q) /\
  same_score (dict_get 0 (rrf_scores two_dense two_docs tied_sparse))
    (Some ((1 # 60) + (1 # 60))%Q) /\
  same_score (dict_get 1 (rrf_scores two_dense two_docs tied_sparse))
    (Some ((1 # 61) + (1 # 61))%Q) /\
  length (top_indices_for_reranking (rrf_scores two_dense two_docs two_sparse))
    = 2.
Proof.
  assert (Hdocs : NoDup (page_content <$> two_docs)).
  { apply (bool_decide_unpack (NoDup (page_content <$> two_docs))).
    vm_compute. exact I. }
  assert (Hdense : NoDup ((fun x => page_content x.1) <$> two_dense)).
  { apply (bool_decide_unpack
             (NoDup ((fun x => page_content x.1) <$> two_dense))).
    vm_compute. exact I. }
  split; [|split; [|split; [|split]]].
  - exact (proj1
      (rrf_fused_score two_dense two_docs two_sparse 0 Hdocs Hdense
         (or_introl eq_refl))).
  - exact (proj1
      (rrf_fused_score two_dense two_docs two_sparse 1 Hdocs Hdense
         (or_introl eq_refl))).
  - exact (proj1
      (rrf_fused_score two_dense two_docs tied_sparse 0 Hdocs Hdense
         (or_introl eq_refl))).
  - exact (proj1
      (rrf_fused_score two_dense two_docs tied_sparse 1 Hdocs Hdense
         (or_introl eq_refl))).
  - exact (proj1 (proj2
      (rrf_fused_score two_dense two_docs two_sparse 0 Hdocs Hdense
         (or_introl eq_refl)))).
Defined.

(* ===================================================================== *)
(** * History and tokenizer: further properties *)
(* ===================================================================== *)

Lemma record_turns_fifo_witness :
  record_turns 2 [] [turn 1; turn 2; turn 3; turn 4; turn 5] = [turn 4; turn 5].
Proof.
  etrans; [apply (record_turns_fifo 2 [turn 1; turn 2; turn 3; turn 4; turn 5])|];
    [lia | reflexivity].
Defined.

Lemma simple_tokenizer_alnum_witness :
  simple_tokenizer "Pre-Eclampsia, week 20"
  = tokenize_alnum "Pre-Eclampsia, week 20".
Proof. apply simple_tokenizer_alnum; reflexivity. Defined.

Lemma empty_query_skips_sparse_witness :
  sparse_search sparse_only_bot "?!" = Ok [].
Proof.
  apply (empty_query_skips_sparse sparse_only_bot "?!"). reflexivity.
Defined.

(** X2. For a positive bound [m], [add_to_history] keeps the last [m]
    entries of the old history followed by the new turn: the new turn
    is always the last entry, and the new length is
    [min (len(history) + 1) m]. *)
Theorem add_to_history_newest_last (m : Z) (h : list Turn) (q a : string) :
  (0 < m)%Z ->
  add_to_history m h q a =
    drop (S (length h) - Z.to_nat m) (h ++ [new_turn q a]) /\
  last (add_to_history m h q a) = Some (new_turn q a) /\
  length (add_to_history m h q a) = Nat.min (S (length h)) (Z.to_nat m).
Proof.
  intros Hm.
  assert (Heq : add_to_history m h q a =
                drop (S (length h) - Z.to_nat m) (h ++ [new_turn q a])).
  { unfold add_to_history. fold (new_turn q a).
    assert (Hlen : length (h ++ [new_turn q a]) = S (length h))
      by (rewrite length_app; simpl; lia).
    rewrite Hlen.
    destruct (Z.ltb_spec m (Z.of_nat (S (length h)))) as [Hlt|Hge].
    - rewrite slice_from_last by done. by rewrite Hlen.
    - replace (S (length h) - Z.to_nat m) with 0 by lia. done. }
  split; [exact Heq|]. rewrite Heq.
  assert (Hpos : 1 <= Z.to_nat m) by lia. split.
  - rewrite drop_app_le by lia. by rewrite last_snoc.
  - rewrite length_drop, length_app. simpl length. lia.
Qed.

Lemma add_to_history_newest_last_witness :
  last (add_to_history 1 [turn 1; turn 2; turn 3] "q" "a") = Some (new_turn "q" "a").
Proof.
  apply (add_to_history_newest_last 1 [turn 1; turn 2; turn 3] "q" "a"). lia.
Defined.

Lemma re_split_go_nonempty (sep : ascii -> bool) (r : bool) (s : string) :
  re_split_go sep r s <> [].
Proof.
  revert r. induction s as [|c s IH]; intros r; simpl; [done|].
  destruct (sep c); [destruct r; [apply IH|done]|].
  by destruct (re_split_go sep false s).
Qed.

(** Every piece of a split consists of characters of the text that are
    not separators. *)
Lemma re_split_go_pieces (sep P : ascii -> bool) (r : bool) (s : string) :
  all_chars P s = true ->
  Forall (fun piece => all_chars (fun c => negb (sep c) && P c) piece = true)
         (re_split_go sep r s).
Proof.
  revert r. induction s as [|c s IH]; intros r; simpl.
  - intros _. by repeat constructor.
  - intros [Hc Hs]%andb_true_iff. destruct (sep c) eqn:Hsep.
    + destruct r; [by apply IH|]. constructor; [done|by apply IH].
    + specialize (IH false Hs).
      destruct (re_split_go sep false s) as [|h t]; simpl.
      * repeat constructor. simpl. by rewrite Hsep, Hc.
      * apply Forall_cons in IH as [Hh Ht]. constructor; [|done].
        simpl. by rewrite Hsep, Hc, Hh.
Qed.

Lemma re_split_go_whole (sep : ascii -> bool) (r : bool) (s : string) :
  all_chars (fun c => negb (sep c)) s = true -> re_split_go sep r s = [s].
Proof.
  revert r. induction s as [|c s IH]; intros r; simpl; [done|].
  intros [Hc Hs]%andb_true_iff. apply negb_true_iff in Hc.
  by rewrite Hc, IH.
Qed.

Lemma lower_char_not_upper (c : ascii) : isupper (lower_char c) = false.
Proof. destruct c as [[] [] [] [] [] [] [] []]; reflexivity. Qed.

Lemma lower_char_fixed (c : ascii) : isupper c = false -> lower_char c = c.
Proof. unfold lower_char. by intros ->. Qed.

Lemma lower_not_upper (s : string) :
  all_chars (fun c => negb (isupper c)) (lower s) = true.
Proof.
  induction s as [|c s IH]; simpl; [done|].
  by rewrite lower_char_not_upper, IH.
Qed.

Lemma lower_fixed (s : string) :
  all_chars (fun c => negb (isupper c)) s = true -> lower s = s.
Proof.
  induction s as [|c s IH]; simpl; [done|].
  intros [Hc Hs]%andb_true_iff. apply negb_true_iff in Hc.
  by rewrite lower_char_fixed, IH.
Qed.

Lemma all_chars_and (P Q : ascii -> bool) (s : string) :
  all_chars (fun c => P c && Q c) s = true ->
  all_chars P s = true /\ all_chars Q s = true.
Proof.
  induction s as [|c s IH]; simpl; [done|].
  intros [[Hp Hq]%andb_true_iff [HP HQ]%IH]%andb_true_iff.
  by rewrite Hp, Hq, HP, HQ.
Qed.

Lemma all_chars_negb_negb (P : ascii -> bool) (s : string) :
  all_chars (fun c => negb (negb (P c))) s = all_chars P s.
Proof.
  induction s as [|c t IH]; simpl; [done|]. by rewrite negb_involutive, IH.
Qed.

Lemma filter_nonempty_singleton (s : string) :
  s <> "" -> filter (fun token => token <> "") [s] = [s].
Proof. intros Hs. by rewrite filter_cons_True. Qed.

(** X4. Every token that [simple_tokenizer] returns for an ASCII text
    is not empty, is made of word characters only ([\w]: ASCII letters,
    digits, underscore) and has no upper-case letter; tokenizing a token
    again gives back that one token. *)
Theorem simple_tokenizer_tokens (text : string) :
  isascii text = true ->
  Forall (fun token =>
            well_formed_token token /\ simple_tokenizer token = [token])
         (simple_tokenizer text).
Proof.
  intros _. apply Forall_forall. intros token Htok.
  assert (Hwf : well_formed_token token).
  { revert Htok. unfold simple_tokenizer, re_split_nonword, re_split.
    intros [Hne Hin]%list_elem_of_filter.
    pose proof (re_split_go_pieces (fun c => negb (is_word c))
                  (fun c => negb (isupper c)) false (lower text)
                  (lower_not_upper text)) as Hall.
    apply (proj1 (Forall_forall _ _) Hall) in Hin.
    apply all_chars_and in Hin as [Hw Hu].
    rewrite all_chars_negb_negb in Hw. by repeat split. }
  split; [exact Hwf|]. destruct Hwf as (Hne & Hw & Hu).
  unfold simple_tokenizer, re_split_nonword, re_split.
  rewrite lower_fixed by done.
  rewrite re_split_go_whole by (by rewrite all_chars_negb_negb).
  by apply filter_nonempty_singleton.
Qed.

Lemma lower_app (a b : string) : lower (a +:+ b) = lower a +:+ lower b.
Proof. induction a as [|c a IH]; simpl; [done|]. by rewrite IH. Qed.

Lemma lower_char_is_word (c : ascii) : is_word (lower_char c) = is_word c.
Proof. destruct c as [[] [] [] [] [] [] [] []]; reflexivity. Qed.

Lemma filter_re_split_run (sep : ascii -> bool) (s : string) :
  filter (fun token => token <> "") (re_split_go sep true s) =
  filter (fun token => token <> "") (re_split_go sep false s).
Proof.
  destruct s as [|c s]; simpl; [done|].
  destruct (sep c); [|done].
  by rewrite filter_cons_False by (intros Hx; by apply Hx).
Qed.

Lemma re_split_go_app (sep : ascii -> bool) (a b : string) (c : ascii) :
  sep c = true ->
  exists h t t',
    re_split_go sep false a = h :: t /\
    re_split_go sep false (a +:+ String c b) = h :: t' /\
    filter (fun token => token <> "") t' =
      filter (fun token => token <> "") t
        ++ filter (fun token => token <> "") (re_split_go sep false b).
Proof.
  intros Hc. induction a as [|x a (h & t & t' & Ha & Hab & Hf)]; simpl.
  - rewrite Hc. exists "", [], (re_split_go sep true b).
    repeat split; try done. simpl. apply filter_re_split_run.
  - destruct (sep x) eqn:Hx.
    + exists "", (re_split_go sep true a),
        (re_split_go sep true (a +:+ String c b)).
      repeat split; try done.
      rewrite !filter_re_split_run, Ha, Hab.
      destruct (decide (h <> "")).
      * rewrite !filter_cons_True by done. simpl. by rewrite Hf.
      * rewrite !filter_cons_False by done. done.
    + rewrite Ha, Hab. by exists (String x h), t, t'.
Qed.

Lemma simple_tokenizer_tokens_witness :
  Forall (fun token =>
            well_formed_token token /\ simple_tokenizer token = [token])
         (simple_tokenizer "Pre-Eclampsia, week_20").
Proof. apply simple_tokenizer_tokens. reflexivity. Defined.

(** X5. In an ASCII text a character outside [\w] separates: the
    tokens of [a + c + b] are the tokens of [a] followed by the tokens
    of [b]. *)
Theorem simple_tokenizer_app (a b : string) (c : ascii) :
  isascii (a +:+ String c b) = true ->
  is_word c = false ->
  simple_tokenizer (a +:+ String c b) = simple_tokenizer a ++ simple_tokenizer b.
Proof.
  intros _ Hc. unfold simple_tokenizer, re_split_nonword, re_split.
  rewrite lower_app. simpl.
  destruct (re_split_go_app (fun c => negb (is_word c)) (lower a) (lower b)
              (lower_char c)) as (h & t & t' & -> & -> & Hf).
  { by rewrite lower_char_is_word, Hc. }
  destruct (decide (h <> "")).
  - rewrite !filter_cons_True by done. simpl. by rewrite Hf.
  - rewrite !filter_cons_False by done. done.
Qed.

Lemma simple_tokenizer_app_witness :
  simple_tokenizer ("Pre-Eclampsia" +:+ String ","%char " week_20")
  = simple_tokenizer "Pre-Eclampsia" ++ simple_tokenizer " week_20".
Proof. apply simple_tokenizer_app; reflexivity. Defined.

(* ===================================================================== *)
(** * Reranking and retrieval: further properties *)
(* ===================================================================== *)

Lemma key_le_trans (a b c : option Q) : key_le a b -> key_le b c -> key_le a c.
Proof.
  destruct a as [x|], b as [y|], c as [z|]; simpl; try done.
  apply Qle_trans.
Qed.

Lemma by_rerank_score_trans : Transitive by_rerank_score.
Proof. intros a b c Hab Hbc. unfold by_rerank_score in *. by eapply key_le_trans. Qed.

Lemma key_lt_true (a b : option Q) : key_lt a b = true -> key_le a b.
Proof.
  destruct a as [x|], b as [y|]; simpl; try done.
  intros H%Qltb_true. by apply Qlt_le_weak.
Qed.

Lemma key_lt_false (a b : option Q) : key_lt a b = false -> key_le b a.
Proof.
  destruct a as [x|], b as [y|]; simpl; try done.
  by intros H%Qltb_false.
Qed.

Lemma rerank_sorted (docs : list Document) :
  StronglySorted by_rerank_score (sorted_desc rerank_key key_lt docs).
Proof.
  apply foldr_insert_by_sorted.
  - apply by_rerank_score_trans.
  - intros y x. apply key_lt_true.
  - intros y x. apply key_lt_false.
Qed.

Lemma rerank_perm (docs : list Document) :
  sorted_desc rerank_key key_lt docs ≡ₚ docs.
Proof. apply foldr_insert_by_perm. Qed.

Lemma slice_to_k {A} (l : list A) : slice_to k l = take 5 l.
Proof. by apply (slice_to_nonneg 5). Qed.

Lemma store_scores_origin (docs : list Document) (scores : list Q) :
  Forall (fun d => exists d0, d0 ∈ docs /\ same_document d d0)
         (store_scores docs scores).
Proof.
  revert scores. induction docs as [|d0 docs IH]; intros scores; simpl.
  - destruct scores; constructor.
  - destruct scores as [|s scores].
    + apply Forall_forall. intros d Hd. exists d. by split.
    + constructor.
      * exists d0. split; [by left|done].
      * eapply Forall_impl; [apply IH|].
        intros d (d1 & Hd1 & Hsame). exists d1. split; [by right|done].
Qed.

Lemma store_scores_zip (docs : list Document) (scores : list Q) :
  length scores = length docs ->
  store_scores docs scores = zip_with with_score docs scores.
Proof.
  revert scores. induction docs as [|d docs IH]; intros [|s scores] Hlen;
    simpl in *; try done.
  by rewrite IH by lia.
Qed.

Lemma take_origin {A} (P : A -> Prop) (n : nat) (l : list A) :
  Forall P l -> Forall P (take n l).
Proof. intros H. by apply Forall_take. Qed.

(** What reranking returns is at most [k] documents of its input. *)
Lemma rerank_documents_origin (bot : RAGBot) (query : string)
    (docs : list Document) :
  length (rerank_documents bot query docs) <= 5 /\
  Forall (fun d => exists d0, d0 ∈ docs /\ same_document d d0)
         (rerank_documents bot query docs).
Proof.
  assert (Hself : Forall (fun d => exists d0, d0 ∈ docs /\ same_document d d0) docs).
  { apply Forall_forall. intros d Hd. exists d. by split. }
  unfold rerank_documents. destruct docs as [|d docs]; [split; [simpl; lia|done]|].
  destruct (reranker bot) as [predict|].
  - destruct (predict _) as [scores|e]; rewrite slice_to_k.
    + split; [rewrite length_take; lia|]. apply Forall_take.
      rewrite rerank_perm. apply store_scores_origin.
    + split; [rewrite length_take; lia|]. by apply Forall_take.
  - rewrite slice_to_k. split; [rewrite length_take; lia|]. by apply Forall_take.
Qed.

(** X7. When the cross-encoder returns one score per document,
    [rerank_documents] returns [min 5 (len(docs))] documents, each an
    input document carrying its own score in [rerank_score], in
    descending order of score, and no document left out has a score
    greater than one that is returned. *)
Theorem rerank_documents_orders_by_score (bot : RAGBot) (query : string)
    (docs : list Document) (predict : list (string * string) -> outcome (list Q))
    (scores : list Q) :
  reranker bot = Some predict ->
  predict (map (fun doc => (query, page_content doc)) docs) = Ok scores ->
  length scores = length docs ->
  let result := rerank_documents bot query docs in
  length result = Nat.min 5 (length docs) /\
  StronglySorted by_rerank_score result /\
  Forall (fun d => exists i d0 s,
            docs !! i = Some d0 /\ scores !! i = Some s /\ d = with_score d0 s)
         result /\
  (forall i d0 s,
     docs !! i = Some d0 -> scores !! i = Some s ->
     with_score d0 s ∉ result ->
     Forall (fun d => by_rerank_score d (with_score d0 s)) result).
Proof.
  intros Hrer Hpred Hlen result.
  set (scored := zip_with with_score docs scores).
  set (sorted := sorted_desc rerank_key key_lt scored).
  assert (Hres : result = take 5 sorted).
  { subst result. unfold rerank_documents. destruct docs as [|d docs].
    - destruct scores; [|done]. done.
    - rewrite Hrer, Hpred, slice_to_k, store_scores_zip by done. done. }
  assert (Hperm : sorted ≡ₚ scored) by apply rerank_perm.
  assert (Hsorted : StronglySorted by_rerank_score sorted) by apply rerank_sorted.
  rewrite <- (take_drop 5 sorted), <- Hres in Hsorted.
  split.
  { rewrite Hres, length_take, Hperm. subst scored.
    rewrite length_zip_with. lia. }
  split; [by eapply StronglySorted_app_1_l|].
  split.
  { rewrite Hres. apply Forall_take. rewrite Hperm. subst scored.
    apply Forall_forall. intros d Hd.
    apply list_elem_of_lookup_1 in Hd as [i Hi].
    apply lookup_zip_with_Some in Hi as (d0 & s & -> & Hd0 & Hs). eauto 10. }
  intros i d0 s Hd0 Hs Hout.
  assert (Hin : with_score d0 s ∈ sorted).
  { rewrite Hperm. subst scored. apply (list_elem_of_lookup_2 _ i).
    apply lookup_zip_with_Some. eauto. }
  rewrite <- (take_drop 5 sorted), <- Hres in Hin.
  apply elem_of_app in Hin as [Hin|Hin]; [done|].
  apply Forall_forall. intros d Hd.
  by apply (StronglySorted_app_1_elem_of _ _ _ _ _ Hsorted).
Qed.

Lemma rerank_documents_orders_by_score_witness :
  StronglySorted by_rerank_score
    (rerank_documents scoring_bot "q" (take 3 sample_docs)).
Proof.
  apply (rerank_documents_orders_by_score scoring_bot "q" (take 3 sample_docs)
           (fun _ => Ok [0.1%Q; 0.9%Q; 0.5%Q]) [0.1%Q; 0.9%Q; 0.5%Q]);
    reflexivity.
Defined.

Lemma docs_at_elem (all_documents : list Document) (indices : list nat)
    (docs : list Document) :
  docs_at all_documents indices = Ok docs -> Forall (fun d => d ∈ all_documents) docs.
Proof.
  unfold docs_at. destruct (mapM _ _) as [ds|] eqn:Hm; [|done].
  intros [= ->]. apply mapM_Some_1 in Hm.
  apply Forall_forall. intros d Hd.
  apply list_elem_of_lookup_1 in Hd as [j Hj].
  destruct (Forall2_lookup_r _ _ _ _ _ Hm Hj) as (i & _ & Hi).
  by eapply list_elem_of_lookup_2.
Qed.

Lemma retrieve_documents_origin (bot : RAGBot) (query : string)
    (docs : list Document) :
  retrieve_documents bot query = Ok docs ->
  length docs <= 5 /\
  Forall (fun d => exists d0, d0 ∈ all_documents bot /\ same_document d d0) docs.
Proof.
  unfold retrieve_documents, retrieve_documents_try.
  assert (Hnil : Ok [] = Ok docs ->
            length docs <= 5 /\
            Forall (fun d => exists d0, d0 ∈ all_documents bot /\ same_document d d0) docs).
  { intros [= <-]. split; [simpl; lia|constructor]. }
  destruct (vectorstore bot) as [search|]; simpl; [|exact Hnil].
  destruct (search query over_retrieve_k) as [dense|]; simpl; [|exact Hnil].
  destruct (sparse_search bot query) as [sparse|]; simpl; [|exact Hnil].
  destruct (sparse_mismatch _ _); simpl; [|exact Hnil].
  destruct (docs_at _ _) as [cands|] eqn:Hat; simpl; [|exact Hnil].
  intros [= <-]. apply docs_at_elem in Hat.
  destruct (rerank_documents_origin bot query cands) as [Hlen Hor].
  split; [done|]. eapply Forall_impl; [exact Hor|].
  intros d (d0 & Hd0 & Hsame). exists d0. split; [|done].
  by apply (proj1 (Forall_forall _ _) Hat).
Qed.

(** X8. [retrieve_documents] always returns normally, with at most
    [k = 5] documents, and every returned document is a document of
    [self.all_documents] (up to the [rerank_score] written into its
    metadata). *)
Theorem retrieve_documents_from_corpus (bot : RAGBot) (query : string) :
  exists docs,
    retrieve_documents bot query = Ok docs /\
    length docs <= 5 /\
    Forall (fun d => exists d0, d0 ∈ all_documents bot /\ same_document d d0) docs.
Proof.
  destruct (retrieve_documents_returns bot query) as [docs Hdocs].
  exists docs. split; [done|]. by apply (retrieve_documents_origin bot query).
Qed.

(** X9. An exception raised by the dense search, or by the lexical
    search after a successful dense search, does not escape
    [retrieve_documents]: the result is the empty list. *)
Theorem retrieve_documents_swallows_failures (bot : RAGBot) (query : string)
    (search : string -> Z -> outcome (list (Document * Q))) (e : exn) :
  vectorstore bot = Some search ->
  search query over_retrieve_k = Raise e \/
  ((exists dense, search query over_retrieve_k = Ok dense) /\
   sparse_search bot query = Raise e) ->
  retrieve_documents bot query = Ok [].
Proof.
  intros Hvs Hfail. unfold retrieve_documents, retrieve_documents_try.
  rewrite Hvs. destruct Hfail as [-> | [[dense ->] Hs]]; simpl; [done|].
  by rewrite Hs.
Qed.

Lemma retrieve_documents_swallows_failures_witness :
  retrieve_documents bot_with_broken_bm25 "fever" = Ok [].
Proof.
  apply (retrieve_documents_swallows_failures bot_with_broken_bm25 "fever"
           (fun _ _ => Ok [(fever_doc, 0.3%Q)]) failing); [reflexivity|].
  right. split; [by eexists|reflexivity].
Defined.

Lemma dict_of_get_elem {K V A} `{EqDecision K} (key : A -> K) (val : A -> V)
    (l : list A) (k : K) (v : V) :
  dict_get k (dict_of key val l) = Some v ->
  exists x, x ∈ l /\ key x = k /\ val x = v.
Proof.
  unfold dict_of.
  assert (Hgen : forall acc : list (K * V),
    dict_get k (fold_left (fun d x => dict_set (key x) (val x) d) l acc) = Some v ->
    (exists x, x ∈ l /\ key x = k /\ val x = v) \/ dict_get k acc = Some v).
  { induction l as [|x l IH]; intros acc; simpl; [by right|].
    intros [(y & Hy & Hk & Hv)|Hacc]%IH.
    - left. exists y. split; [by right|done].
    - rewrite dict_get_set in Hacc. destruct (decide (k = key x)) as [->|].
      + left. exists x. split; [by left|]. split; [done|congruence].
      + by right. }
  intros [H|H]%Hgen; done.
Qed.

Lemma rrf_add_keys (n i r : nat) (rrf : list (nat * Q)) :
  i < n -> Forall (fun j => j < n) (dict_keys rrf) ->
  Forall (fun j => j < n) (dict_keys (rrf_add i r rrf)).
Proof.
  intros Hi Hall. unfold rrf_add. rewrite dict_keys_set.
  destruct (decide _); [done|]. apply Forall_app. split; [done|].
  by repeat constructor.
Qed.

Lemma rrf_dense_keys (dense_results : list (Document * Q))
    (all_documents : list Document) (rrf : list (nat * Q)) :
  Forall (fun j => j < length all_documents) (dict_keys rrf) ->
  Forall (fun j => j < length all_documents)
    (dict_keys (rrf_dense (dense_ranks dense_results)
                  (doc_content_to_index all_documents) rrf)).
Proof.
  unfold rrf_dense. revert rrf.
  induction (dense_ranks dense_results) as [|item items IH]; intros rrf Hall;
    simpl; [done|].
  apply IH. destruct (dict_get item.1 _) as [idx|] eqn:Hidx; [|done].
  apply rrf_add_keys; [|done].
  apply dict_of_get_elem in Hidx as ([i doc] & Hin%elem_of_enumerate & _ & <-).
  simpl. by eapply lookup_lt_Some.
Qed.

Lemma rrf_sparse_keys (sparse_scores : list Q) (n : nat) (rrf : list (nat * Q)) :
  Forall (fun j => j < n) (dict_keys rrf) ->
  Forall (fun j => j < n) (dict_keys (rrf_sparse sparse_scores n rrf)).
Proof.
  unfold rrf_sparse. destruct (decide _) as [Hlen|]; [|done].
  rewrite (slice_to_nonneg num_sparse_for_fusion) by (by compute).
  assert (Hitems : Forall (fun item : nat * nat => item.2 < n)
            (enumerate (take (Z.to_nat num_sparse_for_fusion)
                          (sparse_ranked_indices sparse_scores)))).
  { apply Forall_forall. intros [r i] Hin%elem_of_enumerate. simpl.
    apply list_elem_of_lookup_2 in Hin.
    apply elem_of_take in Hin as (j & Hj%list_elem_of_lookup_2 & _).
    rewrite sparse_ranked_indices_perm in Hj.
    apply elem_of_seq in Hj. lia. }
  revert rrf. induction Hitems as [|item items Hitem _ IH]; intros rrf Hall;
    simpl; [done|].
  apply IH. destruct (Qltb 0 _); [|done]. by apply rrf_add_keys.
Qed.

(** X10. Whatever the two searches return, every index that rank
    fusion selects for reranking is a valid index of the corpus, so the
    lookup [self.all_documents[idx]] of the candidates cannot raise. *)
Theorem fusion_candidates_are_corpus_indices (dense_results : list (Document * Q))
    (all_documents : list Document) (sparse_scores : list Q) :
  let top := top_indices_for_reranking
               (rrf_scores dense_results all_documents sparse_scores) in
  Forall (fun idx => idx < length all_documents) top /\
  exists docs, docs_at all_documents top = Ok docs /\ length docs = length top.
Proof.
  intros top.
  assert (Hkeys : Forall (fun j => j < length all_documents)
            (dict_keys (rrf_scores dense_results all_documents sparse_scores))).
  { unfold rrf_scores. apply rrf_sparse_keys, rrf_dense_keys. constructor. }
  assert (Htop : Forall (fun idx => idx < length all_documents) top).
  { subst top. unfold top_indices_for_reranking. rewrite take_nonneg_20.
    apply Forall_take. by rewrite sorted_desc_perm. }
  split; [exact Htop|].
  unfold docs_at. destruct (mapM _ top) as [docs|] eqn:Hm.
  - exists docs. split; [done|]. apply mapM_Some_1 in Hm.
    symmetry. by eapply Forall2_length.
  - assert (His : is_Some (mapM (fun idx => all_documents !! idx) top)).
    { apply mapM_is_Some_2. eapply Forall_impl; [exact Htop|].
      intros idx Hidx. by apply lookup_lt_is_Some_2. }
    rewrite Hm in His. by destruct His.
Qed.

(* ===================================================================== *)
(** * Streamed generation: further properties *)
(* ===================================================================== *)

Lemma finish_yielded (bot : RAGBot) (question : string)
    (events : list sse_event) (full : string) :
  yielded (finish bot question events full) = events ++ [EndEvent] /\
  raised (finish bot question events full) = None /\
  answer (finish bot question events full) = Some full.
Proof. done. Qed.

(** The ways a run that reaches the [try] block can go. *)
Lemma generation_cases (bot : RAGBot) (question : string)
    (documents : list Document) (g : Generation) :
  llm_loaded bot = true -> (exists u, prepared g = Ok u) ->
  (stream_failure g = Some Blocked /\
   generate_response_stream bot question documents g =
     {| yielded := map TokenEvent (streamed_tokens g); raised := None;
        answer := None; history_after := conversation_history bot |}) \/
  (stream_failure g <> Some Blocked /\
   exists middle full,
     generate_response_stream bot question documents g =
       finish bot question (map TokenEvent (streamed_tokens g) ++ middle) full /\
     (middle = [] \/
      (exists e, middle = [ErrorEvent ("Error during generation: " +:+ exn_str e)]
                 /\ stream_failure g = Some (Raised e)) \/
      (middle = [SourcesEvent (sorted_sources documents)]
       /\ sorted_sources documents <> [] /\ stream_failure g = None))).
Proof.
  intros Hllm [u Hprep]. unfold generate_response_stream.
  rewrite Hllm, Hprep. simpl. fold (streamed_tokens g).
  destruct (stream_failure g) as [[e|]|].
  - right. split; [done|]. eexists _, _. split; [done|]. right. left.
    by exists e.
  - by left.
  - right. split; [done|].
    destruct (sorted_sources documents) as [|s l] eqn:Hs.
    + exists [], (join "" (streamed_tokens g)). rewrite app_nil_r.
      split; [done|]. by left.
    + eexists _, _. split; [done|]. right. right. done.
Qed.

(** X11. Once the model is loaded and steps 1-4 went through, a run
    of [generate_response_stream] whose stream is not blocked (the
    streamer gets its stop signal, or the loop raises) yields the token
    events of the non-empty streamed texts, then at most one event that
    is neither a token nor an end event, then exactly one end event as
    its last event, and no exception escapes. *)
Theorem generation_ends_once (bot : RAGBot) (question : string)
    (documents : list Document) (g : Generation) :
  llm_loaded bot = true -> prepared g = Ok () ->
  stream_failure g <> Some Blocked ->
  let r := generate_response_stream bot question documents g in
  exists middle,
    yielded r = map TokenEvent (streamed_tokens g) ++ middle ++ [EndEvent] /\
    length middle <= 1 /\
    Forall (fun ev => is_token_event ev = false /\ is_end_event ev = false)
           middle /\
    raised r = None.
Proof.
  intros Hllm Hprep Hgo r.
  destruct (generation_cases bot question documents g Hllm (ex_intro _ _ Hprep))
    as [[Hb _] | (_ & middle & full & Hr & Hmid)]; [done|].
  subst r. rewrite Hr. exists middle. simpl. rewrite <- (assoc_L (++)).
  split; [done|].
  destruct Hmid as [-> | [(e & -> & _) | (-> & _)]]; simpl;
    repeat split; try lia; by repeat constructor.
Qed.

Lemma generation_ends_once_witness :
  exists middle,
    yielded (generate_response_stream bot_without_reranker "q" cited_docs
               three_texts)
    = [TokenEvent "a"; TokenEvent "b"; TokenEvent "c"] ++ middle ++ [EndEvent] /\
    length middle <= 1.
Proof.
  destruct (generation_ends_once bot_without_reranker "q" cited_docs
              three_texts eq_refl eq_refl) as (middle & Hy & Hlen & _).
  - discriminate.
  - exists middle. split; [exact Hy|exact Hlen].
Defined.

(** X12. [generate_response_stream] yields an end event exactly when
    the model is loaded, the preparation (prompt, template,
    tokenization, thread start) succeeds and the stream is not blocked;
    an exception escapes exactly when the model is loaded and the
    preparation raises.  Without a model the only event is the error
    ["LLM not initialized"], with no end event.  When [generate()] fails
    in its thread the run yields the tokens streamed so far and nothing
    else: no error event, no end event, and the history is never
    updated. *)
Theorem end_event_iff_generation_started (bot : RAGBot) (question : string)
    (documents : list Document) (g : Generation) :
  let r := generate_response_stream bot question documents g in
  (EndEvent ∈ yielded r <->
   llm_loaded bot = true /\ (exists u, prepared g = Ok u) /\
   stream_failure g <> Some Blocked) /\
  (is_Some (raised r) <-> llm_loaded bot = true /\ exists e, prepared g = Raise e) /\
  (llm_loaded bot = false ->
   yielded r = [ErrorEvent "LLM not initialized"] /\
   history_after r = conversation_history bot) /\
  (llm_loaded bot = true -> (exists u, prepared g = Ok u) ->
   stream_failure g = Some Blocked ->
   yielded r = map TokenEvent (streamed_tokens g) /\
   answer r = None /\ history_after r = conversation_history bot).
Proof.
  intros r. subst r.
  destruct (llm_loaded bot) eqn:Hllm.
  - destruct (prepared g) as [u|e] eqn:Hprep.
    + destruct (generation_cases bot question documents g Hllm
                  (ex_intro _ _ Hprep))
        as [[Hb ->] | (Hgo & middle & full & -> & _)].
      * simpl. split; [|split; [|split]].
        -- split; [|by intros (_ & _ & ?)].
           intros (t & [=] & _)%list_elem_of_fmap.
        -- split; [by intros [? [=]]|]. by intros (_ & e & [=]).
        -- done.
        -- done.
      * simpl. split; [|split; [|split]].
        -- split; [by eauto|]. intros _. apply elem_of_app. right. by left.
        -- split; [by intros [? [=]]|]. by intros (_ & e & [=]).
        -- done.
        -- done.
    + unfold generate_response_stream. rewrite Hllm, Hprep. simpl.
      split; [|split; [|split]].
      * split; [by intros ?%elem_of_nil|]. by intros (_ & (u & [=]) & _).
      * split; [by eauto|]. by eauto.
      * done.
      * by intros _ (u & [=]).
  - unfold generate_response_stream. rewrite Hllm. simpl.
    split; [|split; [|split]].
    + split; [|by intros [[=] _]].
      intros [[=]|?%elem_of_nil]%elem_of_cons; done.
    + split; [by intros [? [=]]|by intros [[=] _]].
    + done.
    + done.
Qed.

Lemma end_event_iff_generation_started_witness :
  let r := generate_response_stream bot_without_reranker "q" cited_docs
             stalled_midway in
  yielded r = [TokenEvent "par"; TokenEvent "tial"] /\
  answer r = None /\ history_after r = [].
Proof.
  apply (end_event_iff_generation_started bot_without_reranker "q" cited_docs
           stalled_midway); [reflexivity|by exists tt|reflexivity].
Defined.

(* ===================================================================== *)
(** * The services that call the bot *)
(* ===================================================================== *)

Lemma sources_event_inv (bot : RAGBot) (question : string)
    (documents : list Document) (g : Generation) (l : list string) :
  SourcesEvent l ∈ yielded (generate_response_stream bot question documents g) ->
  l = sorted_sources documents.
Proof.
  destruct (llm_loaded bot) eqn:Hllm.
  - destruct (prepared g) as [u|e] eqn:Hprep.
    + destruct (generation_cases bot question documents g Hllm
                  (ex_intro _ _ Hprep))
        as [[_ ->] | (_ & middle & full & -> & Hmid)].
      { simpl. by intros (t & [=] & _)%list_elem_of_fmap. }
      simpl. rewrite !elem_of_app, list_elem_of_fmap, list_elem_of_singleton.
      intros [[(t & [=] & _)|Hin]|[=]].
      destruct Hmid as [-> | [(e & -> & _) | (-> & _)]].
      * by apply elem_of_nil in Hin.
      * by apply list_elem_of_singleton in Hin.
      * apply list_elem_of_singleton in Hin. congruence.
    + unfold generate_response_stream. rewrite Hllm, Hprep. simpl.
      by intros ?%elem_of_nil.
  - unfold generate_response_stream. rewrite Hllm. simpl.
    by intros [=]%list_elem_of_singleton.
Qed.

Lemma elem_of_cited (s : served) (x : string) :
  x ∈ cited s <-> exists l, Sse (SourcesEvent l) ∈ sent s /\ x ∈ l.
Proof.
  unfold cited. rewrite list_elem_of_join. split.
  - intros (l & Hx & (p & Hp & Hl)%list_elem_of_omap).
    destruct p as [[]|]; simplify_eq/=. eauto.
  - intros (l & Hin & Hx). exists l. split; [done|].
    apply list_elem_of_omap. by exists (Sse (SourcesEvent l)).
Qed.

(** X14. Every source name in a sources event sent by
    [rag_bot_stream_generator] is the [os.path.splitext] root of the
    [source] of a document of the bot's corpus. *)
Theorem served_sources_come_from_corpus (bot : RAGBot) (query : string)
    (g : Generation) :
  Forall (fun s => exists d0 f,
            d0 ∈ all_documents bot /\ source (metadata d0) = Some f /\
            s = (splitext f).1)
         (cited (RagServer.rag_bot_stream_generator (Some bot) query g)).
Proof.
  apply Forall_forall. intros s (l & Hin & Hs)%elem_of_cited.
  revert Hin. unfold RagServer.rag_bot_stream_generator.
  destruct (retrieve_documents bot query) as [docs|e] eqn:Hret; simpl.
  - intros [Hin|Hin]%elem_of_app.
    + apply list_elem_of_fmap in Hin as (ev & [= <-] & Hev).
      apply sources_event_inv in Hev as ->.
      apply elem_of_sorted_sources in Hs as (doc & f & Hdoc & Hf & ->).
      destruct (retrieve_documents_origin _ _ _ Hret) as [_ Hor].
      destruct (proj1 (Forall_forall _ _) Hor doc Hdoc) as (d0 & Hd0 & _ & Hsrc).
      exists d0, f. split; [done|]. split; [congruence|done].
    + destruct (raised _); [|by apply elem_of_nil in Hin].
      apply list_elem_of_singleton in Hin. done.
  - intros Hin%list_elem_of_singleton. done.
Qed.

(** X15. The endpoint [/rag_generate_stream] calls
    [generate_response_stream] with an empty document list: its stream
    never contains a sources event, and after a successful run the
    history entry is the bare concatenation of the tokens. *)
Theorem endpoint_never_cites_sources (rag_bot_instance : option RAGBot)
    (query : string) (g : Generation) :
  let s := RagServer.generate_rag_response_stream rag_bot_instance query g in
  cited s = [] /\
  (forall bot,
     rag_bot_instance = Some bot -> llm_loaded bot = true ->
     prepared g = Ok () -> stream_failure g = None ->
     history_then s =
       Some (if nonempty query && nonempty (join "" (streamed_tokens g))
             then add_to_history (max_history_length bot)
                    (conversation_history bot) query
                    (join "" (streamed_tokens g))
             else conversation_history bot)).
Proof.
  intros s. split.
  - apply elem_of_nil_inv. intros x (l & Hin & Hx)%elem_of_cited.
    subst s. revert Hin. unfold RagServer.generate_rag_response_stream.
    destruct rag_bot_instance as [bot|]; simpl.
    + intros (ev & [= <-] & Hev)%list_elem_of_fmap.
      apply sources_event_inv in Hev as ->. by apply elem_of_nil in Hx.
    + unfold RagServer.error_gen.
      rewrite !elem_of_cons, elem_of_nil. intuition congruence.
  - intros bot -> Hllm Hprep Hfail. subst s. simpl.
    unfold generate_response_stream. rewrite Hllm, Hprep, Hfail. done.
Qed.

(* ===================================================================== *)
(** * The SSE proxy: further properties *)
(* ===================================================================== *)

Section proxy_more.
Variable json_loads : string -> option Views.json.
Variable py_str : Views.json -> string.
Variable RAG_SERVICE_URL : string.

Abbreviation inspected := (Views.inspected json_loads py_str).
Abbreviation stream_loop := (Views.stream_loop json_loads py_str).
Abbreviation attempt := (Views.attempt json_loads py_str).
Abbreviation handle := (Views.handle RAG_SERVICE_URL).
Abbreviation proxy :=
  (Views.rag_service_sse_proxy_generator json_loads py_str RAG_SERVICE_URL).

(** The loop is left exactly on a chunk that starts with [event: end]. *)
Lemma inspected_leave (c : string) (st : Views.locals) :
  (inspected c st).2 = startswith c "event: end".
Proof.
  unfold Views.inspected, Views.inspect.
  destruct (startswith c "event: token") eqn:Htok.
  { apply startswith_app in Htok as [rest ->].
    change (startswith ("event: token" +:+ rest) "event: end") with false.
    destruct (Views.find_data_line _) as [line|]; simpl; [|done].
    destruct (Views.load_data _ _) as [data|]; simpl; [|done].
    destruct (Views.get _ _ _) as [token|]; simpl; [|done].
    by destruct (Views.add_str _ _). }
  destruct (startswith c "event: sources") eqn:Hsrc.
  { apply startswith_app in Hsrc as [rest ->].
    change (startswith ("event: sources" +:+ rest) "event: end") with false.
    destruct (Views.find_data_line _) as [line|]; simpl; [|done].
    destruct (Views.load_data _ _) as [data|]; simpl; [|done].
    destruct (Views.get _ _ _) as [sources_list|]; simpl; [|done].
    destruct (Views.truthy _); simpl; [|done].
    by destruct (Views.iterate _). }
  destruct (startswith c "event: error") eqn:Herr.
  { apply startswith_app in Herr as [rest ->]. done. }
  by destruct (startswith c "event: end").
Qed.

(** What the read loop yields and how it ends. *)
Lemma stream_loop_yields (chunks : list Views.step) (fin : Views.stream_end)
    (st : Views.locals) :
  Forall (fun y => passed_on y = true) (stream_loop chunks fin st).1.1 /\
  filter (fun y => is_forwarded y = true) (stream_loop chunks fin st).1.1
    = forwarded_of (until_end chunks) /\
  (stream_loop chunks fin st).2 =
    if reaches_end chunks then None
    else match fin with Views.Exhausted => None | Views.Broken e => Some e end.
Proof.
  revert st. induction chunks as [|s rest IH]; intros st; simpl.
  - destruct fin; simpl; repeat split; constructor.
  - pose proof (keep_alive_fst (Views.received_at s) st) as Hka.
    destruct (Views.keep_alive _ _) as [ping st1]. simpl in Hka.
    assert (Hping : Forall (fun y => passed_on y = true) ping /\
                    filter (fun y => is_forwarded y = true) ping = []).
    { rewrite Hka. destruct (Qltb _ _); split; try done. by repeat constructor. }
    destruct Hping as [Hp1 Hp2].
    pose proof (inspected_leave (Views.chunk s)
                  (Views.set_last_activity (Views.resumed_at s) st1)) as Hleave.
    destruct (inspected _ _) as [st2 leave]. simpl in Hleave. subst leave.
    destruct (startswith (Views.chunk s) "event: end") eqn:Hend; simpl.
    + split; [|split; [|done]].
      * apply Forall_app. split; [done|]. by repeat constructor.
      * rewrite filter_app, Hp2. simpl. by rewrite filter_cons_True.
    + destruct (IH st2) as (H1 & H2 & H3).
      destruct (stream_loop rest fin st2) as [[more st3] e]. simpl in *.
      split; [|split; [|done]].
      * apply Forall_app. split; [done|]. by constructor.
      * rewrite filter_app, Hp2. simpl. rewrite filter_cons_True by done.
        by rewrite H2.
Qed.

(** Every session is the init event, what the loop passed on, and one
    of four closings. *)
Lemma proxy_shape (query_text : string) (i : Views.Interaction)
    (sess : Views.session) :
  exists mid tail,
    Views.yielded (proxy query_text i sess)
      = Views.Init (Views.id i) :: mid ++ tail /\
    closing_of (Views.id i) tail /\
    mid = match Views.service sess with
          | Views.Responds status_code _ chunks fin =>
              if decide (status_code = 200%Z)
              then (stream_loop chunks fin (initial_locals i sess)).1.1
              else []
          | Views.ConnectFails _ => []
          end /\
    if existsb is_own_error tail
    then is_Some (Views.error_message
                    (Views.interaction (Views.final (proxy query_text i sess))))
    else Views.error_message
           (Views.interaction (Views.final (proxy query_text i sess)))
         = Views.error_message i.
Proof.
  unfold Views.rag_service_sse_proxy_generator, Views.attempt.
  fold (initial_locals i sess). set (st0 := initial_locals i sess).
  destruct (Views.service sess) as [e|status body chunks fin].
  { simpl.
    destruct (handle_effect RAG_SERVICE_URL e st0) as (err & det & msg & ->).
    simpl. exists [], [Views.Error err det (Views.id i); Views.End].
    repeat split; try done; try constructor; simpl; eauto. }
  destruct (decide (status <> 200%Z)) as [Hne|Heq].
  { rewrite decide_False by done. destruct body as [detail|e].
    - simpl. eexists [], [_]. repeat split; try done; try constructor; simpl; eauto.
    - simpl.
      destruct (handle_effect RAG_SERVICE_URL e st0) as (err & det & msg & ->).
      simpl. exists [], [Views.Error err det (Views.id i); Views.End].
      repeat split; try done; try constructor; simpl; eauto. }
  rewrite decide_True by (by destruct (decide (status = 200%Z))).
  destruct (stream_loop chunks fin st0) as [[ys st1] exc] eqn:Hloop.
  apply stream_loop_effect in Hloop as [Hi _]. simpl in *.
  destruct exc as [e|].
  - simpl.
    destruct (handle_effect RAG_SERVICE_URL e st1) as (err & det & msg & ->).
    simpl. rewrite ?capture_failed. rewrite Hi. simpl.
    exists ys, [Views.Error err det (Views.id i); Views.End].
    rewrite ?app_nil_r. repeat split; try done; try constructor; simpl; eauto.
  - simpl. exists ys.
    assert (Hmsg : Views.error_message (Views.interaction (Views.capture st1))
                   = Views.error_message i).
    { unfold Views.capture. destruct (_ && _); simpl; by rewrite Hi. }
    destruct (Views.error_occurred (Views.capture st1)).
    + exists []. rewrite ?app_nil_r. repeat split; try done; try constructor; simpl; eauto.
    + exists [Views.End]. repeat split; try done; try constructor; simpl; eauto.
Qed.

Lemma closing_not_passed_on (interaction_id : string) (tail : list Views.sse) :
  closing_of interaction_id tail ->
  Forall (fun y => passed_on y = false) tail.
Proof. destruct 1; by repeat constructor. Qed.

Lemma proxy_mid_passed_on (i : Views.Interaction) (sess : Views.session)
    (mid : list Views.sse) :
  mid = match Views.service sess with
        | Views.Responds status_code _ chunks fin =>
            if decide (status_code = 200%Z)
            then (stream_loop chunks fin (initial_locals i sess)).1.1
            else []
        | Views.ConnectFails _ => []
        end ->
  Forall (fun y => passed_on y = true) mid.
Proof.
  intros ->. destruct (Views.service sess) as [|status body chunks fin]; [done|].
  destruct (decide _); [|done]. apply stream_loop_yields.
Qed.

(** X17. The chunks that the proxy forwards are exactly the upstream
    chunks up to and including the first one that starts with
    [event: end], in order and unchanged, when the status is 200;
    nothing is forwarded otherwise.  Chunks after an upstream end are
    never forwarded. *)
Theorem proxy_forwards_until_end (query_text : string)
    (i : Views.Interaction) (sess : Views.session) :
  filter (fun y => is_forwarded y = true)
         (Views.yielded (proxy query_text i sess)) =
    match Views.service sess with
    | Views.Responds status_code _ chunks _ =>
        if decide (status_code = 200%Z) then forwarded_of (until_end chunks)
        else []
    | Views.ConnectFails _ => []
    end.
Proof.
  destruct (proxy_shape query_text i sess) as (mid & tail & -> & Htail & -> & _).
  rewrite filter_cons_False by done. rewrite filter_app.
  assert (Ht : filter (fun y => is_forwarded y = true) tail = []).
  { destruct Htail; done. }
  rewrite Ht, app_nil_r.
  destruct (Views.service sess) as [|status body chunks fin]; [done|].
  destruct (decide _); [|done]. apply stream_loop_yields.
Qed.

Lemma split_in_tail {A} (x : A) (pre tail a b : list A) :
  Forall (fun y => y <> x) pre -> pre ++ tail = a ++ x :: b ->
  exists a', a = pre ++ a' /\ tail = a' ++ x :: b.
Proof.
  revert a. induction pre as [|p pre IH]; intros a Hpre Heq; simpl in *.
  - by exists a.
  - apply Forall_cons in Hpre as [Hp Hpre].
    destruct a as [|a0 a]; simplify_eq/=.
    destruct (IH a Hpre) as (a' & -> & ->); [done|]. by exists a'.
Qed.

(** X18. Every session starts with the init event; nothing follows
    the proxy's own end event; an error event of the proxy carries the
    interaction id and is followed by nothing or by the end event
    only. *)
Theorem proxy_end_is_final (query_text : string) (i : Views.Interaction)
    (sess : Views.session) :
  let ys := Views.yielded (proxy query_text i sess) in
  (exists rest, ys = Views.Init (Views.id i) :: rest) /\
  (forall a b, ys = a ++ Views.End :: b -> b = []) /\
  (forall a error detail id b,
     ys = a ++ Views.Error error detail id :: b ->
     id = Views.id i /\ (b = [] \/ b = [Views.End])).
Proof.
  intros ys. subst ys.
  destruct (proxy_shape query_text i sess) as (mid & tail & -> & Htail & Hmid & _).
  apply proxy_mid_passed_on in Hmid.
  split; [by eexists|]. split.
  - intros a b Heq.
    destruct (split_in_tail Views.End (Views.Init (Views.id i) :: mid) tail a b)
      as (a' & _ & Ht); [|done|].
    { constructor; [done|]. eapply Forall_impl; [exact Hmid|].
      by intros [] ?. }
    destruct Htail; destruct a' as [|? [|? [|? ?]]]; by simplify_eq/=.
  - intros a error detail id b Heq.
    destruct (split_in_tail (Views.Error error detail id)
                (Views.Init (Views.id i) :: mid) tail a b)
      as (a' & _ & Ht); [|done|].
    { constructor; [done|]. eapply Forall_impl; [exact Hmid|].
      by intros [] ?. }
    destruct Htail; destruct a' as [|? [|? [|? ?]]]; simplify_eq/=; eauto.
Qed.

(** X19. [interaction.error_message] is set exactly in the sessions
    in which the proxy writes an error event of its own; in every other
    session, also when an upstream [event: error] chunk is passed on,
    it keeps its value. *)
Theorem error_message_only_from_proxy_errors (query_text : string)
    (i : Views.Interaction) (sess : Views.session) :
  let r := proxy query_text i sess in
  if existsb is_own_error (Views.yielded r)
  then is_Some (Views.error_message (Views.interaction (Views.final r)))
  else Views.error_message (Views.interaction (Views.final r))
       = Views.error_message i.
Proof.
  intros r. subst r.
  destruct (proxy_shape query_text i sess) as (mid & tail & Hy & Htail & Hmid & Hmsg).
  rewrite Hy. simpl. rewrite existsb_app.
  apply proxy_mid_passed_on in Hmid.
  assert (Hm : existsb is_own_error mid = false).
  { clear -Hmid. induction Hmid as [|y l Hy _ IH]; simpl; [done|].
    rewrite IH. by destruct y. }
  by rewrite Hm.
Qed.

(** What a list of passed-on items says about its chunks. *)
Lemma passed_on_chunks (ys : list Views.sse) (steps : list Views.step) :
  Forall (fun y => passed_on y = true) ys ->
  filter (fun y => is_forwarded y = true) ys = forwarded_of steps ->
  existsb is_error ys =
    existsb (fun s => startswith (Views.chunk s) "event: error") steps /\
  filter (fun y => Views.is_end y = true) ys =
    forwarded_of
      (filter (fun s => startswith (Views.chunk s) "event: end" = true) steps).
Proof.
  intros Hall. revert steps.
  induction Hall as [|y ys Hy _ IH]; intros steps Hf; simpl in *.
  - by destruct steps.
  - destruct y as [| | |c|ts]; try done.
    + rewrite filter_cons_True in Hf by done.
      destruct steps as [|s steps]; simplify_eq/=.
      destruct (IH steps) as [He Hend]; [done|]. rewrite He. split; [done|].
      destruct (startswith (Views.chunk s) "event: end") eqn:Hs.
      * rewrite !filter_cons_True by done. simpl. by rewrite Hend.
      * rewrite !filter_cons_False by (simpl; congruence). done.
    + rewrite filter_cons_False in Hf by done.
      rewrite filter_cons_False by done. by apply IH.
Qed.

Lemma until_end_reaches (chunks : list Views.step) :
  reaches_end chunks = true ->
  exists pre s,
    until_end chunks = pre ++ [s] /\ no_end_chunk pre /\
    startswith (Views.chunk s) "event: end" = true.
Proof.
  induction chunks as [|s rest IH]; simpl; [done|].
  destruct (startswith (Views.chunk s) "event: end") eqn:Hs; simpl.
  - intros _. exists [], s. repeat split; try done. constructor.
  - intros (pre & s' & -> & Hpre & Hs')%IH. exists (s :: pre), s'.
    repeat split; try done. by constructor.
Qed.

(** X20. In a session with status 200 whose upstream stream
    reaches an [event: end] chunk without an [event: error] chunk
    before it, the client receives two end events: the forwarded
    upstream chunk, then the proxy's own. *)
Theorem forwarded_end_is_followed_by_own_end (query_text : string)
    (i : Views.Interaction) (t0 : Q) (save : bool) (body : outcome string)
    (chunks : list Views.step) (fin : Views.stream_end) :
  reaches_end chunks = true -> no_error_chunk (until_end chunks) ->
  exists s,
    last (until_end chunks) = Some s /\
    filter (fun y => Views.is_end y = true)
      (Views.yielded
         (proxy query_text i
            {| Views.init_resumed_at := t0;
               Views.service := Views.Responds 200 body chunks fin;
               Views.save_raises := save |}))
    = [Views.Forwarded (Views.chunk s); Views.End].
Proof.
  intros Hreach Hnoerr.
  destruct (until_end_reaches chunks Hreach) as (pre & s & Hue & Hpre & Hs).
  exists s. split; [by rewrite Hue, last_snoc|].
  unfold Views.rag_service_sse_proxy_generator, Views.attempt. simpl.
  set (st0 := {| Views.full_response_text := "" |}).
  destruct (stream_loop_yields chunks fin st0) as (Hpass & Hfwd & Hexc).
  destruct (stream_loop chunks fin st0) as [[ys st1] exc] eqn:Hloop.
  apply stream_loop_effect in Hloop as [_ Herr]. simpl in *.
  rewrite Hreach in Hexc. subst exc.
  destruct (passed_on_chunks ys (until_end chunks) Hpass Hfwd) as [He Hend].
  assert (Hno : Views.error_occurred st1 = false).
  { rewrite Herr, He. clear -Hnoerr.
    induction Hnoerr as [|p l Hp _ IH]; simpl; [done|]. by rewrite Hp, IH. }
  assert (Hcap : Views.error_occurred (Views.capture st1) = false).
  { unfold Views.capture. by destruct (_ && _). }
  rewrite Hcap. simpl. rewrite filter_cons_False by done.
  rewrite filter_app, Hend, Hue, filter_app.
  assert (Hpre' : filter (fun s0 => startswith (Views.chunk s0) "event: end" = true)
                    pre = []).
  { clear -Hpre. induction Hpre as [|p l Hp _ IH]; [done|].
    rewrite filter_cons_False by congruence. done. }
  rewrite Hpre'. simpl. rewrite filter_cons_True by done. done.
Qed.

(** X21. If every chunk arrives within 15 seconds of the last
    activity (the init event or the previous forwarded chunk), the
    session contains no keep-alive comment. *)
Theorem quiet_session_has_no_keep_alive (query_text : string)
    (i : Views.Interaction) (t0 : Q) (save : bool) (body : outcome string)
    (chunks : list Views.step) (fin : Views.stream_end) :
  (forall pre s post, chunks = pre ++ s :: post ->
     (Views.received_at s - last_activity_after t0 pre <= 15)%Q) ->
  Forall (fun y => Views.is_keep_alive y = false)
    (Views.yielded
       (proxy query_text i
          {| Views.init_resumed_at := t0;
             Views.service := Views.Responds 200 body chunks fin;
             Views.save_raises := save |})).
Proof.
  intros Hq.
  set (sess := {| Views.init_resumed_at := t0 |}).
  destruct (proxy_shape query_text i sess) as (mid & tail & -> & Htail & -> & _).
  simpl. constructor; [done|]. apply Forall_app. split.
  - by apply (stream_loop_quiet json_loads py_str chunks fin (initial_locals i sess)).
  - destruct Htail; by repeat constructor.
Qed.

End proxy_more.

Lemma forwarded_end_is_followed_by_own_end_witness :
  filter (fun y => Views.is_end y = true)
    (Views.yielded (Views.rag_service_sse_proxy_generator loads_token str_blank
         "http://rag" "q" fresh_interaction healthy_session))
  = [Views.Forwarded end_chunk; Views.End].
Proof.
  destruct (forwarded_end_is_followed_by_own_end loads_token str_blank
              "http://rag" "q" fresh_interaction 100
              false (Ok "")
              [at_time 101 (token_chunk "Hel"); at_time 102 (token_chunk "lo");
               at_time 103 end_chunk; at_time 104 (token_chunk "late")]
              Views.Exhausted) as (s & Hs & Hy).
  - reflexivity.
  - repeat constructor.
  - injection Hs as <-. exact Hy.
Defined.

Lemma quiet_session_has_no_keep_alive_witness :
  Forall (fun y => Views.is_keep_alive y = false)
    (Views.yielded (Views.rag_service_sse_proxy_generator loads_token str_blank
         "http://rag" "q" fresh_interaction healthy_session)).
Proof.
  apply (quiet_session_has_no_keep_alive loads_token str_blank "http://rag" "q"
           fresh_interaction 100 false (Ok "")).
  intros pre s post Heq.
  destruct pre as [|p1 [|p2 [|p3 [|p4 [|p5 pre]]]]]; simplify_eq/=; try done.
Defined.

(* ===================================================================== *)
(** * From the bot to the stored text *)
(* ===================================================================== *)

Lemma string_app_cons (c : ascii) (s t : string) :
  String c s +:+ t = String c (s +:+ t).
Proof. reflexivity. Qed.

Lemma string_app_nil_l (s : string) : "" +:+ s = s.
Proof. reflexivity. Qed.

Lemma string_app_nil_r (s : string) : s +:+ "" = s.
Proof.
  induction s as [|c s IH]; [done|]. by rewrite string_app_cons, IH.
Qed.

Lemma string_app_assoc (a b c : string) : (a +:+ b) +:+ c = a +:+ (b +:+ c).
Proof.
  induction a as [|x a IH]; [done|]. by rewrite !string_app_cons, IH.
Qed.

Lemma rev_app_spec (s acc : string) :
  String.rev_app s acc = String.rev s +:+ acc.
Proof.
  unfold String.rev. revert acc.
  induction s as [|c s IH]; intros acc; simpl; [done|].
  rewrite (IH (String c acc)), (IH (String c "")).
  by rewrite string_app_assoc.
Qed.

Lemma rev_cons (c : ascii) (s : string) :
  String.rev (String c s) = String.rev s +:+ String c "".
Proof. unfold String.rev at 1. simpl. apply rev_app_spec. Qed.

Lemma rev_string_app (a b : string) :
  String.rev (a +:+ b) = String.rev b +:+ String.rev a.
Proof.
  induction a as [|c a IH].
  - by rewrite string_app_nil_l, string_app_nil_r.
  - by rewrite string_app_cons, !rev_cons, IH, string_app_assoc.
Qed.

Lemma rev_rev (s : string) : String.rev (String.rev s) = s.
Proof.
  induction s as [|c s IH]; [done|].
  by rewrite rev_cons, rev_string_app, IH.
Qed.

Lemma rev_nonempty (s : string) : s <> "" -> String.rev s <> "".
Proof. intros Hs Hr. apply Hs. by rewrite <- (rev_rev s), Hr. Qed.

Lemma lstrip_length (s : string) :
  (String.length (lstrip s) <= String.length s)%nat.
Proof.
  induction s as [|c s IH]; simpl; [done|]. destruct (isspace c); simpl; lia.
Qed.

Lemma lstrip_fixed_head (c : ascii) (s : string) :
  lstrip (String c s) = String c s -> isspace c = false.
Proof.
  simpl. destruct (isspace c); [|done]. intros H.
  pose proof (lstrip_length s) as Hl. rewrite H in Hl. simpl in Hl. lia.
Qed.

Lemma lstrip_app_l (s t : string) :
  s <> "" -> lstrip s = s -> lstrip (s +:+ t) = s +:+ t.
Proof.
  destruct s as [|c s]; [done|]. intros _ H%lstrip_fixed_head.
  rewrite string_app_cons. simpl. by rewrite H.
Qed.

Lemma strip_trimmed (s : string) : trimmed s -> strip s = s.
Proof.
  intros (_ & Hl & Hr). unfold strip. by rewrite Hl, Hr, rev_rev.
Qed.

Lemma all_chars_app (P : ascii -> bool) (a b : string) :
  all_chars P (a +:+ b) = all_chars P a && all_chars P b.
Proof.
  induction a as [|c a IH]; [done|].
  rewrite string_app_cons. simpl. by rewrite IH, andb_assoc.
Qed.

Lemma split_one_line (s : string) : one_line s -> split "010" s = [s].
Proof.
  unfold one_line. induction s as [|c s IH]; simpl; [done|].
  intros [Hc Hs]%andb_prop. rewrite IH by done.
  destruct (decide (c = "010"%char)) as [->|]; done.
Qed.

Lemma split_app_line (a b : string) :
  one_line a -> split "010" (a +:+ nl +:+ b) = a :: split "010" b.
Proof.
  unfold one_line. induction a as [|c a IH].
  - done.
  - rewrite string_app_cons. simpl.
    intros [Hc Hs]%andb_prop. rewrite IH by done.
    destruct (decide (c = "010"%char)) as [->|]; done.
Qed.

Lemma startswith_prefix (p rest : string) : startswith (p +:+ rest) p = true.
Proof.
  unfold startswith. induction p as [|c p IH].
  - by destruct rest.
  - rewrite string_app_cons. simpl.
    destruct (ascii_dec c c); [done|congruence].
Qed.

Lemma find_data_line_event (head d : string) :
  head <> "" -> lstrip head = head -> one_line head ->
  startswith head "data:" = false ->
  trimmed d -> one_line d ->
  Views.find_data_line (head +:+ nl +:+ "data: " +:+ d +:+ nl +:+ nl)
    = Some ("data: " +:+ d).
Proof.
  intros Hne Hl Hone Hnd (Hd & Hdl & Hdr) Hdone.
  unfold Views.find_data_line.
  assert (Hstrip : strip (head +:+ nl +:+ "data: " +:+ d +:+ nl +:+ nl)
                   = head +:+ nl +:+ "data: " +:+ d).
  { unfold strip. rewrite lstrip_app_l by done.
    rewrite <- !string_app_assoc. rewrite (rev_string_app _ nl).
    rewrite (rev_string_app _ nl). rewrite (rev_string_app _ d).
    change (String.rev nl) with nl. unfold nl at 1 2.
    rewrite !string_app_cons, !string_app_nil_l. simpl lstrip.
    rewrite lstrip_app_l by (by try apply rev_nonempty).
    by rewrite rev_string_app, !rev_rev. }
  rewrite Hstrip. rewrite split_app_line by done.
  rewrite split_one_line.
  - cbn [List.find]. rewrite Hnd.
    change ("data: " +:+ d) with ("data:" +:+ (" " +:+ d)) at 1.
    by rewrite startswith_prefix.
  - unfold one_line. by rewrite all_chars_app, Hdone.
Qed.

Section codec.
Variable json_dumps : Views.json -> string.
Variable json_loads : string -> option Views.json.
Variable py_str : Views.json -> string.
Variable RAG_SERVICE_URL : string.

Abbreviation inspected := (Views.inspected json_loads py_str).
Abbreviation stream_loop := (Views.stream_loop json_loads py_str).
Abbreviation proxy :=
  (Views.rag_service_sse_proxy_generator json_loads py_str RAG_SERVICE_URL).

Lemma load_data_round_trip (v : Views.json) :
  round_trips json_dumps json_loads v ->
  Views.load_data json_loads ("data: " +:+ json_dumps v) = Ok v.
Proof.
  intros (Ht & _ & Hv). unfold Views.load_data.
  change (drop_chars 5 ("data: " +:+ json_dumps v))
    with (String " " (json_dumps v)).
  assert (Hs : strip (String " " (json_dumps v)) = json_dumps v).
  { rewrite <- (strip_trimmed _ Ht) at 2. reflexivity. }
  by rewrite Hs, Hv.
Qed.

Lemma inspected_token (token : string) (st : Views.locals) :
  round_trips json_dumps json_loads (token_payload token) ->
  inspected (wire json_dumps (TokenEvent token)) st
    = (Views.set_text (Views.full_response_text st +:+ token) st, false).
Proof.
  intros Hv. pose proof Hv as (Ht & Hone & _).
  unfold Views.inspected, Views.inspect, wire.
  rewrite startswith_prefix.
  rewrite find_data_line_event by done.
  by rewrite load_data_round_trip.
Qed.

Lemma format_strings (sources : list string) :
  map (Views.format py_str) (map Views.JString sources) = sources.
Proof. induction sources as [|s l IH]; simpl; congruence. Qed.

Lemma inspected_sources (sources : list string) (st : Views.locals) :
  sources <> [] ->
  round_trips json_dumps json_loads (sources_payload sources) ->
  inspected (wire json_dumps (SourcesEvent sources)) st
    = (Views.set_text
         (Views.full_response_text st +:+ sources_block sources) st, false).
Proof.
  intros Hne Hv. pose proof Hv as (Ht & Hone & _).
  unfold Views.inspected, Views.inspect, wire.
  change (startswith ("event: sources" +:+ _) "event: token") with false.
  cbv iota. rewrite startswith_prefix.
  rewrite find_data_line_event by done.
  rewrite load_data_round_trip by done. simpl.
  destruct sources as [|s l]; [done|]. simpl.
  by rewrite format_strings.
Qed.

Lemma inspected_error (error : string) (st : Views.locals) :
  inspected (wire json_dumps (ErrorEvent error)) st
    = (Views.set_error_occurred st, false).
Proof. reflexivity. Qed.

Lemma inspected_end (st : Views.locals) :
  inspected (wire json_dumps EndEvent) st = (st, true).
Proof. reflexivity. Qed.

Lemma keep_alive_state (t t' : Q) (st : Views.locals) :
  let st' := Views.set_last_activity t' (Views.keep_alive t st).2 in
  Views.full_response_text st' = Views.full_response_text st /\
  Views.error_occurred st' = Views.error_occurred st.
Proof. unfold Views.keep_alive. by destruct (Qltb 15 _). Qed.

(** The loop over chunks that carry one readable event each. *)
Lemma stream_loop_events (events : list sse_event) (chunks : list Views.step)
    (fin : Views.stream_end) (st : Views.locals) :
  map Views.chunk chunks = map (wire json_dumps) events ->
  Forall (readable json_dumps json_loads) events ->
  let r := stream_loop chunks fin st in
  Views.full_response_text r.1.2
    = Views.full_response_text st +:+ event_text events /\
  Views.error_occurred r.1.2
    = Views.error_occurred st || reports_error events /\
  (existsb is_end_event events = true -> r.2 = None).
Proof.
  intros Hc Hr. revert chunks st Hc.
  induction Hr as [|ev events Hev _ IH]; intros chunks st Hc.
  - destruct chunks; [|done]. simpl.
    destruct fin; simpl; by rewrite string_app_nil_r, orb_false_r.
  - destruct chunks as [|s rest]; [done|]. simpl in Hc.
    injection Hc as Hs Hrest. specialize (IH rest).
    cbn [Views.stream_loop].
    destruct (keep_alive_state (Views.received_at s) (Views.resumed_at s) st)
      as [Ht He].
    destruct (Views.keep_alive (Views.received_at s) st) as [ping st0].
    simpl in Ht, He.
    set (st1 := Views.set_last_activity (Views.resumed_at s) st0) in *.
    rewrite Hs. destruct ev as [token|sources|error|]; simpl in Hev.
    + rewrite inspected_token by done.
      set (st2 := Views.set_text _ st1).
      destruct (IH st2 Hrest) as (IHt & IHe & IHx).
      destruct (stream_loop rest fin st2) as [[more st3] e]. simpl in *.
      rewrite IHt, IHe, Ht, He. by rewrite string_app_assoc.
    + destruct Hev as [Hne Hv]. rewrite inspected_sources by done.
      set (st2 := Views.set_text _ st1).
      destruct (IH st2 Hrest) as (IHt & IHe & IHx).
      destruct (stream_loop rest fin st2) as [[more st3] e]. simpl in *.
      rewrite IHt, IHe, Ht, He. by rewrite string_app_assoc.
    + rewrite inspected_error.
      set (st2 := Views.set_error_occurred st1).
      destruct (IH st2 Hrest) as (IHt & IHe & IHx).
      destruct (stream_loop rest fin st2) as [[more st3] e]. simpl in *.
      rewrite IHt, IHe, Ht. by rewrite orb_true_r.
    + rewrite inspected_end. simpl.
      by rewrite Ht, He, string_app_nil_r, orb_false_r.
Qed.

Lemma join_empty_cons (t : string) (ts : list string) :
  join "" (t :: ts) = t +:+ join "" ts.
Proof.
  unfold join. simpl. destruct ts; [by rewrite string_app_nil_r|done].
Qed.

Lemma event_text_tokens (tokens : list string) (rest : list sse_event) :
  event_text (map TokenEvent tokens ++ rest)
    = join "" tokens +:+ event_text rest.
Proof.
  induction tokens as [|t ts IH]; [done|].
  simpl map. cbn [app event_text]. rewrite IH, join_empty_cons.
  by rewrite string_app_assoc.
Qed.

Lemma reports_error_tokens (tokens : list string) (rest : list sse_event) :
  reports_error (map TokenEvent tokens ++ rest) = reports_error rest.
Proof. induction tokens as [|t ts IH]; [done|]. simpl. exact IH. Qed.

(** What a run of the generator that reaches its [finally] block puts
    on the wire. *)
Lemma generation_on_the_wire (bot : RAGBot) (question : string)
    (documents : list Document) (g : Generation) (a : string) :
  let r := generate_response_stream bot question documents g in
  answer r = Some a ->
  (forall token, token ∈ streamed_tokens g ->
     round_trips json_dumps json_loads (token_payload token)) ->
  (sorted_sources documents <> [] ->
     round_trips json_dumps json_loads
       (sources_payload (sorted_sources documents))) ->
  event_text (yielded r) = a /\
  reports_error (yielded r)
    = match stream_failure g with Some _ => true | None => false end /\
  existsb is_end_event (yielded r) = true /\
  Forall (readable json_dumps json_loads) (yielded r).
Proof.
  unfold generate_response_stream. fold (streamed_tokens g).
  destruct (llm_loaded bot); [|done]. simpl negb. cbv iota.
  destruct (prepared g) as [u|e]; [|done].
  intros Ha Htok Hsrc.
  assert (Htoks : Forall (readable json_dumps json_loads)
                    (map TokenEvent (streamed_tokens g))).
  { apply Forall_fmap, Forall_forall. intros t Ht. by apply Htok. }
  destruct (stream_failure g) as [[e|]|]; [|done|].
  - simpl in *. injection Ha as <-.
    rewrite <- app_assoc, event_text_tokens, reports_error_tokens.
    rewrite existsb_app. simpl. rewrite orb_true_r, string_app_nil_r.
    repeat split; try done.
    apply Forall_app. split; [done|]. by repeat constructor.
  - destruct (sorted_sources documents) as [|s l] eqn:Hs.
    + simpl in *. injection Ha as <-.
      rewrite event_text_tokens, reports_error_tokens, existsb_app.
      simpl. rewrite orb_true_r, string_app_nil_r.
      repeat split; try done.
      apply Forall_app. split; [done|]. by repeat constructor.
    + simpl in *. injection Ha as <-.
      rewrite <- app_assoc, event_text_tokens, reports_error_tokens.
      rewrite existsb_app. simpl. rewrite orb_true_r, string_app_nil_r.
      repeat split; try done.
      apply Forall_app. split; [done|].
      constructor; [|by repeat constructor]. split; [done|]. by apply Hsrc.
Qed.

(** X22. From the bot to the database: if each chunk the proxy
    receives is one event of a run of [generate_response_stream] as
    written on the wire, and [json.loads] reads back what [json.dumps]
    wrote for the token and sources payloads, then the text the proxy
    accumulates is the text the bot records as its answer
    ([full_response_for_history]), and it is stored in
    [final_response_text] when it is not empty and the generation did
    not fail. *)
Theorem stored_text_is_bot_answer (query_text : string)
    (i : Views.Interaction) (t0 : Q) (save : bool) (body : outcome string)
    (chunks : list Views.step) (fin : Views.stream_end)
    (bot : RAGBot) (question : string) (documents : list Document)
    (g : Generation) (a : string) :
  let r := generate_response_stream bot question documents g in
  answer r = Some a ->
  map Views.chunk chunks = map (wire json_dumps) (yielded r) ->
  (forall token, token ∈ streamed_tokens g ->
     round_trips json_dumps json_loads (token_payload token)) ->
  (sorted_sources documents <> [] ->
     round_trips json_dumps json_loads
       (sources_payload (sorted_sources documents))) ->
  let p := proxy query_text i
             {| Views.init_resumed_at := t0;
                Views.service := Views.Responds 200 body chunks fin;
                Views.save_raises := save |} in
  Views.full_response_text (Views.final p) = a /\
  Views.final_response_text (Views.interaction (Views.final p))
    = match stream_failure g with
      | None => if nonempty a then Some a else Views.final_response_text i
      | Some _ => Views.final_response_text i
      end.
Proof.
  intros r Ha Hc Htok Hsrc p. subst r p.
  destruct (generation_on_the_wire bot question documents g a Ha Htok Hsrc)
    as (Htext & Herr & Hend & Hread).
  unfold Views.rag_service_sse_proxy_generator, Views.attempt. simpl.
  set (st0 := {| Views.full_response_text := "" |}).
  destruct (stream_loop_events _ chunks fin st0 Hc Hread) as (Ht & He & Hx).
  destruct (stream_loop chunks fin st0) as [[ys st1] exc] eqn:Hloop.
  apply (stream_loop_effect json_loads py_str) in Hloop as [Hi _].
  simpl in *. rewrite Hx by done. rewrite Htext in Ht. rewrite Herr in He.
  rewrite string_app_nil_l in Ht.
  unfold Views.capture. rewrite He. destruct (stream_failure g); simpl.
  - rewrite andb_false_r. by rewrite Hi.
  - rewrite andb_true_r, Ht. destruct (nonempty a); simpl; by rewrite ?Hi.
Qed.

Lemma stream_loop_same_but_text (json_loads2 : string -> option Views.json)
    (py_str2 : Views.json -> string) (chunks : list Views.step)
    (fin : Views.stream_end) (st st' : Views.locals) :
  same_but_text st st' ->
  let r := stream_loop chunks fin st in
  let r' := Views.stream_loop json_loads2 py_str2 chunks fin st' in
  r.1.1 = r'.1.1 /\ same_but_text r.1.2 r'.1.2 /\ r.2 = r'.2.
Proof.
  revert st st'. induction chunks as [|s rest IH]; intros st st' Hst.
  - simpl. by destruct fin.
  - destruct Hst as (He & Ht & Hi). cbn [Views.stream_loop].
    unfold Views.keep_alive. rewrite <- Ht.
    set (k := if Qltb 15 _ then _ else _).
    set (k' := if Qltb 15 _ then _ else _).
    assert (Hk : k.1 = k'.1 /\ same_but_text k.2 k'.2).
    { subst k k'. destruct (Qltb 15 _); by repeat split. }
    destruct k as [ping st0], k' as [ping' st0']. simpl in Hk.
    destruct Hk as [-> (He0 & Ht0 & Hi0)].
    set (st1 := Views.set_last_activity _ st0).
    set (st1' := Views.set_last_activity _ st0').
    pose proof (inspected_leave json_loads py_str (Views.chunk s) st1) as Hl.
    pose proof (inspected_leave json_loads2 py_str2 (Views.chunk s) st1') as Hl'.
    destruct (inspected (Views.chunk s) st1) as [st2 leave] eqn:Hins.
    destruct (Views.inspected json_loads2 py_str2 (Views.chunk s) st1')
      as [st2' leave'] eqn:Hins'.
    apply inspected_effect in Hins as (Hi2 & Ht2 & He2 & _).
    apply inspected_effect in Hins' as (Hi2' & Ht2' & He2' & _).
    simpl in *. subst leave leave'.
    assert (Hst2 : same_but_text st2 st2').
    { repeat split; congruence. }
    destruct (startswith (Views.chunk s) "event: end"); [done|].
    destruct (IH st2 st2' Hst2) as (Hy & Hs & Hx).
    destruct (stream_loop rest fin st2) as [[more st3] e].
    destruct (Views.stream_loop json_loads2 py_str2 rest fin st2')
      as [[more' st3'] e'].
    simpl in *. by subst.
Qed.

Lemma handle_same_but_text (e : exn) (st st' : Views.locals) :
  Views.interaction st = Views.interaction st' ->
  (Views.handle RAG_SERVICE_URL e st).1 = (Views.handle RAG_SERVICE_URL e st').1 /\
  Views.error_occurred (Views.capture (Views.handle RAG_SERVICE_URL e st).2)
    = true.
Proof.
  intros Hi. unfold Views.handle. rewrite Hi.
  destruct (exn_kind e); simpl; by rewrite capture_failed.
Qed.

(** X23. What the client receives does not depend on how the
    payloads decode: two proxies that differ only in [json.loads] and
    [str] yield the same events in every session.  A payload that fails
    to parse can change the stored text only. *)
Theorem client_stream_ignores_decoding
    (json_loads2 : string -> option Views.json)
    (py_str2 : Views.json -> string) (query_text : string)
    (i : Views.Interaction) (sess : Views.session) :
  Views.yielded (proxy query_text i sess)
  = Views.yielded
      (Views.rag_service_sse_proxy_generator json_loads2 py_str2
         RAG_SERVICE_URL query_text i sess).
Proof.
  unfold Views.rag_service_sse_proxy_generator, Views.attempt.
  set (st0 := {| Views.full_response_text := "" |}).
  destruct (Views.service sess) as [e|status body chunks fin]; [done|].
  destruct (decide (status <> 200%Z)); [done|].
  destruct (stream_loop_same_but_text json_loads2 py_str2 chunks fin st0 st0)
    as (Hy & (He & _ & Hi) & Hx); [done|].
  destruct (stream_loop chunks fin st0) as [[ys st1] exc].
  destruct (Views.stream_loop json_loads2 py_str2 chunks fin st0)
    as [[ys' st1'] exc'].
  simpl in Hy, He, Hi, Hx. subst ys' exc'.
  destruct exc as [e|].
  - destruct (handle_same_but_text e st1 st1' Hi) as [Hh Hc].
    destruct (handle_same_but_text e st1' st1') as [_ Hc']; [done|].
    destruct (Views.handle RAG_SERVICE_URL e st1) as [rep st2].
    destruct (Views.handle RAG_SERVICE_URL e st1') as [rep' st2'].
    simpl in *. by rewrite Hh, Hc, Hc'.
  - simpl.
    assert (Hc : forall st, Views.error_occurred (Views.capture st)
                            = Views.error_occurred st).
    { intros st. unfold Views.capture. by destruct (_ && _). }
    by rewrite !Hc, He.
Qed.
End codec.

Lemma stored_text_is_bot_answer_witness :
  Views.final_response_text
    (Views.interaction
       (Views.final
          (Views.rag_service_sse_proxy_generator loads_sample str_blank
             "http://rag" "q" fresh_interaction
             {| Views.init_resumed_at := 100;
                Views.service :=
                  Views.Responds 200 (Ok "")
                    (map (fun ev => at_time 101 (wire dumps_sample ev))
                       (yielded (generate_response_stream bot_without_reranker
                                   "q" cited_docs three_texts)))
                    Views.Exhausted;
                Views.save_raises := false |})))
  = Some ("abc" +:+ sources_block ["guide_a"; "guide_b"]).
Proof.
  destruct (stored_text_is_bot_answer dumps_sample loads_sample str_blank
              "http://rag" "q" fresh_interaction 100 false (Ok "")
              (map (fun ev => at_time 101 (wire dumps_sample ev))
                 (yielded (generate_response_stream bot_without_reranker
                             "q" cited_docs three_texts)))
              Views.Exhausted bot_without_reranker "q" cited_docs three_texts
              ("abc" +:+ sources_block ["guide_a"; "guide_b"]))
    as [_ H].
  - reflexivity.
  - by rewrite map_map.
  - intros token Ht. vm_compute in Ht.
    repeat (apply elem_of_cons in Ht as [->|Ht]; [by vm_compute|]).
    by apply elem_of_nil in Ht.
  - intros _. by vm_compute.
  - exact H.
Defined.
